(** * dice_be.managers.connection: the per-game connection manager

    A shallow embedding of [ConnectionManager]
    (src/dice_be/managers/connection.py) and of the part of the asyncio
    event loop that [asyncio.gather] relies on, followed by the properties
    of the registry, of single sends and of the two fan-out operations.

    The calls of [logger.debug] are left out: they write to the log and
    nothing in the manager depends on them. *)

From stdpp Require Import gmap strings list fin_maps.

Set Default Proof Using "Type".
#[local] Set Warnings "-clear-no-such-hyp".

(** ** Python values and exceptions *)

(** An [ObjectId] is kept in its printed form, so that [str(client)] in the
    message of [send] is the identity itself. *)
Definition ObjectId := string.

(** A [WebSocket] object is known by its object identity. *)
Definition WebSocket := nat.

(** The exceptions that the manager raises or lets through.  [KeyError] is
    what a failed [dict] subscript raises; [LookupError msg cause] is
    [raise LookupError(msg) from cause]; [PyError] stands for every other
    exception class (TypeError from [json.dumps], RuntimeError or
    WebSocketDisconnect from the transport, ...), named by its text. *)
Inductive exn : Type :=
| KeyError (key : ObjectId)
| LookupError (msg : string) (cause : exn)
| PyError (what : string).

Inductive result (A : Type) : Type :=
| Ok (a : A)
| Raise (e : exn).
Arguments Ok {A} a.
Arguments Raise {A} e.

(** Modelled from the spec: [dice_be.models.users.User] is not among the
    sources; the manager reads its [id] (and its [name], for logging). *)
Record User : Type := mkUser { id : ObjectId; name : string }.

(** ** Python dictionaries

    A [dict] keeps its keys in insertion order; [connections.items()]
    iterates in that order, which fixes the order in which [gather] gets its
    coroutines.  Assigning to an existing key keeps the key's position. *)
Module PyDict.
Section Dict.
Context {V : Type}.

Definition t := list (ObjectId * V).

Definition empty : t := [].

(** [d[k]] : [None] stands for [KeyError(k)]. *)
Fixpoint get (k : ObjectId) (d : t) : option V :=
  match d with
  | [] => None
  | (k', v) :: d' => if decide (k = k') then Some v else get k d'
  end.

(** [d[k] = v] *)
Fixpoint set (k : ObjectId) (v : V) (d : t) : t :=
  match d with
  | [] => [(k, v)]
  | (k', v') :: d' =>
      if decide (k = k') then (k', v) :: d' else (k', v') :: set k v d'
  end.

(** [del d[k]] : [None] stands for [KeyError(k)], the dict being left as
    it was. *)
Fixpoint del (k : ObjectId) (d : t) : option t :=
  match d with
  | [] => None
  | (k', v') :: d' =>
      if decide (k = k') then Some d'
      else match del k d' with
           | Some d'' => Some ((k', v') :: d'')
           | None => None
           end
  end.

Definition keys (d : t) : list ObjectId := d.*1.

(** A dictionary has one entry per key. *)
Definition wf (d : t) : Prop := NoDup (keys d).

Definition to_map (d : t) : gmap ObjectId V := list_to_map d.

End Dict.
Arguments t : clear implicits.
End PyDict.

(** ** The manager's own state *)

(** [self.connections] is the only attribute of a [ConnectionManager]. *)
Record ConnectionManager : Type := mkManager {
  connections : PyDict.t WebSocket
}.

(** [ConnectionManager()] *)
Definition init : ConnectionManager := {| connections := PyDict.empty |}.

(** [__getitem__] *)
Definition getitem (client : User) (self : ConnectionManager) : result WebSocket :=
  match PyDict.get (id client) (connections self) with
  | Some ws => Ok ws
  | None => Raise (KeyError (id client))
  end.

(** [add_connection] *)
Definition add_connection (client : User) (connection : WebSocket)
    (self : ConnectionManager) : ConnectionManager :=
  {| connections := PyDict.set (id client) connection (connections self) |}.

(** [remove_connection] *)
Definition remove_connection (client : User) (self : ConnectionManager)
    : result unit * ConnectionManager :=
  match PyDict.del (id client) (connections self) with
  | Some d => (Ok tt, {| connections := d |})
  | None => (Raise (KeyError (id client)), self)
  end.

(** A caller's sequence of registry operations.  An operation that raises
    leaves the manager as it was, and the caller goes on with the next one. *)
Inductive reg_op : Type :=
| Register (client : User) (connection : WebSocket)
| Unregister (client : User).

Definition apply_op (o : reg_op) (self : ConnectionManager)
    : result unit * ConnectionManager :=
  match o with
  | Register c ws => (Ok tt, add_connection c ws self)
  | Unregister c => remove_connection c self
  end.

Fixpoint replay (ops : list reg_op) (self : ConnectionManager)
    : list (result unit) * ConnectionManager :=
  match ops with
  | [] => ([], self)
  | o :: ops' =>
      let '(r, self') := apply_op o self in
      let '(rs, self'') := replay ops' self' in
      (r :: rs, self'')
  end.

(** The registry as the specification words it: a finite map from identity
    to channel, on which register inserts or overwrites and unregister
    removes the entry or fails when there is none. *)
Module Spec.

Definition apply_op (o : reg_op) (m : gmap ObjectId WebSocket)
    : result unit * gmap ObjectId WebSocket :=
  match o with
  | Register c ws => (Ok tt, <[id c := ws]> m)
  | Unregister c =>
      match m !! id c with
      | Some _ => (Ok tt, delete (id c) m)
      | None => (Raise (KeyError (id c)), m)
      end
  end.

Fixpoint replay (ops : list reg_op) (m : gmap ObjectId WebSocket)
    : list (result unit) * gmap ObjectId WebSocket :=
  match ops with
  | [] => ([], m)
  | o :: ops' =>
      let '(r, m') := apply_op o m in
      let '(rs, m'') := replay ops' m' in
      (r :: rs, m'')
  end.

End Spec.

(** ** The collaborators

    What the manager takes from outside the module: the payload types and
    their serialisers ([json.dumps] for a [dict], [BaseModel.json] for a
    pydantic model), and [dice_be.models.games.PlayerData], of which only the
    [id] is read.  A serialiser may raise (a [dict] holding a value that has
    no JSON form makes [json.dumps] raise TypeError). *)
Class Payloads : Type := {
  Dict : Type;
  BaseModel : Type;
  Other : Type;
  PlayerData : Type;
  json_dumps : Dict → result string;
  model_json : BaseModel → result string;
  player_id : PlayerData → ObjectId
}.

Section Definitions.
Context {P : Payloads}.

(** The value bound to [data]: a [str], a [dict], a [BaseModel], or any
    other object (the annotation [str | dict | BaseModel] is not enforced at
    run time). *)
Inductive payload : Type :=
| Text (s : string)
| DictData (d : Dict)
| ModelData (m : BaseModel)
| OtherData (o : Other).

(** The value bound to [client] in [send]. *)
Inductive client_arg : Type :=
| AUser (u : User)
| APlayer (p : PlayerData)
| AnId (i : ObjectId).

(** What the transport sees: calls of [send_text] and of [close] on a
    [WebSocket], in the order in which they are made. *)
Inductive event : Type :=
| SendText (ws : WebSocket) (data : payload)
| Close (ws : WebSocket).

(** How an awaited transport call behaves: whether the caller is suspended
    before the call completes, and what it completes with. *)
Record io : Type := mkIo { suspends : bool; outcome : result unit }.

(** The transport is free to answer each call as it likes, knowing the
    channel, everything that was done on the transport before, and the
    argument. *)
Class Transport : Type := {
  send_text_io : WebSocket → list event → payload → io;
  close_io : WebSocket → list event → io
}.

Context {T : Transport}.

(** The manager together with the transport's history. *)
Record world : Type := mkWorld {
  manager : ConnectionManager;
  trace : list event
}.

Definition record (ev : event) (w : world) : world :=
  {| manager := manager w; trace := trace w ++ [ev] |}.

(** A coroutine of the manager that was run up to its only [await]:
    [Done r] when it returned or raised without being suspended,
    [Suspended r] when it waits for the transport and will end with [r]. *)
Inductive coro : Type :=
| Done (r : result unit)
| Suspended (r : result unit).

Definition await (b : io) (after : result unit → result unit) : coro :=
  if suspends b then Suspended (after (outcome b)) else Done (after (outcome b)).

(** What the awaiting caller gets in the end. *)
Definition coro_result (c : coro) : result unit :=
  match c with Done r | Suspended r => r end.

(** [disconnect]: the subscript is outside any [try], [close] is awaited,
    and nothing else is done. *)
Definition disconnect (client : User) (w : world) : coro * world :=
  match PyDict.get (id client) (connections (manager w)) with
  | None => (Done (Raise (KeyError (id client))), w)
  | Some ws => (await (close_io ws (trace w)) (λ r, r), record (Close ws) w)
  end.

(** The first lines of [send]: [data] is rebound for a [dict] and for a
    [BaseModel], and left alone otherwise. *)
Definition encode (data : payload) : result payload :=
  match data with
  | DictData d =>
      match json_dumps d with Ok s => Ok (Text s) | Raise e => Raise e end
  | ModelData m =>
      match model_json m with Ok s => Ok (Text s) | Raise e => Raise e end
  | _ => Ok data
  end.

Definition client_id (client : client_arg) : ObjectId :=
  match client with
  | AUser u => id u
  | APlayer p => player_id p
  | AnId i => i
  end.

Definition not_connected (client : ObjectId) : string :=
  "Client " +:+ (client +:+ " is not connected").

(** [except KeyError as e: raise LookupError(...) from e], around the
    subscript and the awaited [send_text] alike. *)
Definition except_KeyError (client : ObjectId) (r : result unit) : result unit :=
  match r with
  | Raise (KeyError k) => Raise (LookupError (not_connected client) (KeyError k))
  | _ => r
  end.

(** [send] *)
Definition send (client : client_arg) (data : payload) (w : world) : coro * world :=
  match encode data with
  | Raise e => (Done (Raise e), w)
  | Ok data =>
      let client := client_id client in
      match PyDict.get client (connections (manager w)) with
      | None => (Done (except_KeyError client (Raise (KeyError client))), w)
      | Some ws =>
          (await (send_text_io ws (trace w) data) (except_KeyError client),
           record (SendText ws data) w)
      end
  end.

(** ** The event loop under [asyncio.gather]

    [gather] wraps each coroutine in a task, whose first step is queued with
    [call_soon]; the caller is suspended on the [outer] future.  The loop
    runs the queued callbacks first in, first out.  A task that ends queues
    its done-callback; the done-callback of [gather] counts the task, and,
    [return_exceptions] being false, hands the first exception it meets to
    [outer] at once, or the results once every task was counted; a future
    that gets its value queues the wake-up of its awaiter.  The other tasks
    are not cancelled when one raises: they go on, whether or not the caller
    has been resumed.

    The state of the loop holds what this needs: the coroutines given to
    [gather] ([children]), the queue of callbacks ([ready]), the tasks
    suspended in the transport together with what they will end with
    ([waiting]), the results set so far ([settled]), the counter and the
    future of [gather] ([nfinished], [outer]), and what the caller got, if
    it was resumed ([parent]). *)
Inductive callback : Type :=
| Step (i : nat)
| Wakeup (i : nat) (r : result unit)
| DoneCallback (i : nat) (r : result unit)
| WakeParent.

Record loop : Type := mkLoop {
  the_world : world;
  children : list (client_arg * payload);
  ready : list callback;
  waiting : list (nat * result unit);
  settled : list (nat * result unit);
  nfinished : nat;
  outer : option (result unit);
  parent : option (result unit)
}.

(** [asyncio.gather] on the unpacked coroutines, followed by [await]:
    without a coroutine [outer] is born done and the caller is not suspended. *)
Definition gather (coros : list (client_arg * payload)) (w : world) : loop :=
  match coros with
  | [] => mkLoop w [] [] [] [] 0 (Some (Ok tt)) (Some (Ok tt))
  | _ => mkLoop w coros (Step <$> seq 0 (length coros)) [] [] 0 None None
  end.

(** The caller raised before it reached [gather]. *)
Definition raised (e : exn) (w : world) : loop :=
  mkLoop w [] [] [] [] 0 None (Some (Raise e)).

(** A task ended with [r]: its result is set and its done-callback queued. *)
Definition finish (i : nat) (r : result unit) (l : loop) : loop :=
  mkLoop (the_world l) (children l) (ready l ++ [DoneCallback i r]) (waiting l)
         (settled l ++ [(i, r)]) (nfinished l) (outer l) (parent l).

(** [outer.set_result] or [outer.set_exception]. *)
Definition resolve (r : result unit) (l : loop) : loop :=
  mkLoop (the_world l) (children l) (ready l ++ [WakeParent]) (waiting l)
         (settled l) (nfinished l) (Some r) (parent l).

Definition run_callback (cb : callback) (l : loop) : loop :=
  match cb with
  | Step i =>
      match children l !! i with
      | None => l
      | Some (client, data) =>
          let '(c, w) := send client data (the_world l) in
          let l := mkLoop w (children l) (ready l) (waiting l) (settled l)
                          (nfinished l) (outer l) (parent l) in
          match c with
          | Done r => finish i r l
          | Suspended r =>
              mkLoop (the_world l) (children l) (ready l) (waiting l ++ [(i, r)])
                     (settled l) (nfinished l) (outer l) (parent l)
          end
      end
  | Wakeup i r => finish i r l
  | DoneCallback i r =>
      let l := mkLoop (the_world l) (children l) (ready l) (waiting l) (settled l)
                      (S (nfinished l)) (outer l) (parent l) in
      match outer l with
      | Some _ => l
      | None =>
          match r with
          | Raise e => resolve (Raise e) l
          | Ok _ =>
              if decide (nfinished l = length (children l))
              then resolve (Ok tt) l else l
          end
      end
  | WakeParent =>
      mkLoop (the_world l) (children l) (ready l) (waiting l) (settled l)
             (nfinished l) (outer l) (outer l)
  end.

(** The transport's answer for a suspended task arrives. *)
Fixpoint take_waiting (i : nat) (ws : list (nat * result unit))
    : option (result unit * list (nat * result unit)) :=
  match ws with
  | [] => None
  | (j, r) :: ws' =>
      if decide (i = j) then Some (r, ws')
      else match take_waiting i ws' with
           | Some (r', ws'') => Some (r', (j, r) :: ws'')
           | None => None
           end
  end.

(** What the loop does next is either the callback at the head of the queue
    or the arrival of an answer from the transport, which queues the wake-up
    of the task that waits for it. *)
Inductive action : Type :=
| RunNext
| IoComplete (i : nat).

Definition step (a : action) (l : loop) : loop :=
  match a with
  | RunNext =>
      match ready l with
      | [] => l
      | cb :: rest =>
          run_callback cb
            (mkLoop (the_world l) (children l) rest (waiting l) (settled l)
                    (nfinished l) (outer l) (parent l))
      end
  | IoComplete i =>
      match take_waiting i (waiting l) with
      | None => l
      | Some (r, rest) =>
          mkLoop (the_world l) (children l) (ready l ++ [Wakeup i r]) rest
                 (settled l) (nfinished l) (outer l) (parent l)
      end
  end.

Definition exec (sched : list action) (l : loop) : loop :=
  foldl (λ l a, step a l) l sched.

(** Nothing is queued and no task waits for the transport. *)
Definition quiescent (l : loop) : Prop := ready l = [] ∧ waiting l = [].

(** One way to schedule: queued callbacks first, then the oldest answer. *)
Definition next_action (l : loop) : option action :=
  match ready l, waiting l with
  | _ :: _, _ => Some RunNext
  | [], (i, _) :: _ => Some (IoComplete i)
  | [], [] => None
  end.

Fixpoint schedule (fuel : nat) (l : loop) : list action :=
  match fuel with
  | 0 => []
  | S fuel =>
      match next_action l with
      | None => []
      | Some a => a :: schedule fuel (step a l)
      end
  end.

(** ** The fan-out operations *)

(** [exclude_ids = {exclude.id} if exclude else {}], then
    [client_id not in exclude_ids]. *)
Definition not_excluded (exclude : option User) (client_id : ObjectId) : bool :=
  match exclude with
  | Some u => bool_decide (client_id ≠ id u)
  | None => true
  end.

(** The generator of [broadcast]: one [self.send(client_id, data)] for each
    item of [self.connections] that passes the filter. *)
Definition broadcast_coros (data : payload) (exclude : option User)
    (items : PyDict.t WebSocket) : list (client_arg * payload) :=
  (λ item, (AnId item.1, data))
    <$> List.filter (λ item, not_excluded exclude item.1) items.

(** [broadcast] *)
Definition broadcast (data : payload) (exclude : option User) (w : world) : loop :=
  gather (broadcast_coros data exclude (connections (manager w))) w.

(** The generator of [personal_broadcast]: it is unpacked before [gather] is
    called, so a failed subscript of [player_mapping] ends the call there.
    [data_factory] is taken to be a function that returns. *)
Fixpoint personal_coros (data_factory : PlayerData → payload)
    (player_mapping : gmap ObjectId PlayerData) (items : PyDict.t WebSocket)
    : result (list (client_arg * payload)) :=
  match items with
  | [] => Ok []
  | (client_id, _) :: items' =>
      match player_mapping !! client_id with
      | None => Raise (KeyError client_id)
      | Some player =>
          match personal_coros data_factory player_mapping items' with
          | Ok coros => Ok ((AnId client_id, data_factory player) :: coros)
          | Raise e => Raise e
          end
      end
  end.

(** [personal_broadcast] *)
Definition personal_broadcast (data_factory : PlayerData → payload)
    (player_mapping : gmap ObjectId PlayerData) (w : world) : loop :=
  match personal_coros data_factory player_mapping (connections (manager w)) with
  | Ok coros => gather coros w
  | Raise e => raised e w
  end.

(** ** Vocabulary of the statements *)

(** What starting the task of one coroutine of [send] adds to the history
    of the transport: the call of [send_text] with the encoded payload on
    the channel found for the client, or nothing when encoding or the
    subscript raises. *)
Definition write_of (m : ConnectionManager) (child : client_arg * payload)
    : list event :=
  match encode child.2 with
  | Ok data =>
      match PyDict.get (client_id child.1) (connections m) with
      | Some ws => [SendText ws data]
      | None => []
      end
  | Raise _ => []
  end.

Definition writes (m : ConnectionManager) (coros : list (client_arg * payload))
    : list event :=
  concat (write_of m <$> coros).

(** The world in which the task of index [k] takes its first step, the
    tasks before it having taken theirs. *)
Definition world_at (w : world) (coros : list (client_arg * payload)) (k : nat)
    : world :=
  mkWorld (manager w) (trace w ++ writes (manager w) (take k coros)).

(** What the [send] of the task of index [i] ends with. *)
Definition child_result (w : world) (coros : list (client_arg * payload))
    (i : nat) : option (result unit) :=
  match coros !! i with
  | Some (client, data) =>
      Some (coro_result (send client data (world_at w coros i)).1)
  | None => None
  end.


(** The task and the result that a queued callback carries. *)
Definition carried (cb : callback) : option (nat * result unit) :=
  match cb with
  | Wakeup i r | DoneCallback i r => Some (i, r)
  | _ => None
  end.

Definition waking (cb : callback) : option (nat * result unit) :=
  match cb with
  | Wakeup i r => Some (i, r)
  | _ => None
  end.

Definition is_step (cb : callback) : bool :=
  match cb with Step _ => true | _ => false end.

(** The invariant of the loop started by [gather coros w]: [k] tasks have
    taken their first step, [rest] is what was queued behind the first
    steps. *)
Record loop_inv (w : world) (coros : list (client_arg * payload))
    (l : loop) (k : nat) (rest : list callback) : Prop := {
  inv_children : children l = coros;
  inv_started : k ≤ length coros;
  inv_ready : ready l = (Step <$> seq k (length coros - k)) ++ rest;
  inv_rest : Forall (λ cb, is_step cb = false) rest;
  inv_world : the_world l = world_at w coros k;
  inv_results : ∀ i r,
    (i, r) ∈ waiting l ++ omap carried rest ++ settled l →
    child_result w coros i = Some r;
  inv_count : nfinished l + length (waiting l) + length (omap carried rest) = k;
  inv_everyone : ∀ j r, child_result w coros j = Some r →
    k ≤ j ∨ (j, r) ∈ waiting l ++ omap waking rest ++ settled l;
  inv_pending : outer l = None →
    parent l = None ∧ (WakeParent ∉ rest) ∧ nfinished l < length coros ∧
    ∀ j e, child_result w coros j = Some (Raise e) →
           k ≤ j ∨ (j, Raise e) ∈ waiting l ++ omap carried rest;
  inv_resolved : ∀ r, outer l = Some r →
    k = length coros ∧
    (parent l = Some r ∨ (parent l = None ∧ WakeParent ∈ rest)) ∧
    match r with
    | Raise e => ∃ j, child_result w coros j = Some (Raise e)
    | Ok _ => ∀ j r', child_result w coros j = Some r' → r' = Ok tt
    end
}.

Definition loop_ok (w : world) (coros : list (client_arg * payload))
    (l : loop) : Prop :=
  ∃ k rest, loop_inv w coros l k rest.

(** A measure that every effective action decreases. *)
Definition cb_weight (cb : callback) : nat :=
  match cb with
  | Step _ => 5
  | Wakeup _ _ => 3
  | DoneCallback _ _ => 2
  | WakeParent => 1
  end.

Definition weight (l : loop) : nat :=
  sum_list_with cb_weight (ready l) + 4 * length (waiting l).

(** The loop run until nothing is left to do. *)
Definition run_to_end (l : loop) : loop := exec (schedule (weight l) l) l.

End Definitions.

Arguments not_excluded : simpl never.

(** ** A concrete setting

    Three players and their channels, a few payloads of each shape, and a
    transport on which chosen channels fail or answer late.  The examples
    and the inhabitation lemmas below are stated in this setting. *)
Module Demo.

Definition dquote : string := String (Ascii.ascii_of_nat 34) EmptyString.

(** [{"type": "start"}], [{"type": "tick"}], and a [dict] that holds a
    [set], which [json.dumps] refuses. *)
Inductive message : Type := StartMsg | TickMsg | SetMsg.

Definition quoted (s : string) : string := dquote +:+ (s +:+ dquote).

Definition type_message (kind : string) : string :=
  "{" +:+ (quoted "type" +:+ (": " +:+ (quoted kind +:+ "}"))).

Definition not_serializable : exn :=
  PyError "TypeError: Object of type set is not JSON serializable".

Definition dumps (m : message) : result string :=
  match m with
  | StartMsg => Ok (type_message "start")
  | TickMsg => Ok (type_message "tick")
  | SetMsg => Raise not_serializable
  end.

#[export] Instance payloads : Payloads := {|
  Dict := message;
  BaseModel := unit;
  Other := nat;
  PlayerData := User;
  json_dumps := dumps;
  model_json := λ _, Ok "{}";
  player_id := id
|}.

(** A transport on which [send_text] and [close] raise [err] on the
    channels of [failing] and suspend their caller on the channels of
    [slow]. *)
Definition answer (err : exn) (failing slow : list WebSocket) (ws : WebSocket)
    : io :=
  mkIo (bool_decide (ws ∈ slow))
       (if bool_decide (ws ∈ failing) then Raise err else Ok tt).

Definition transport_raising (err : exn) (failing slow : list WebSocket)
    : Transport := {|
  send_text_io := λ ws _ _, answer err failing slow ws;
  close_io := λ ws _, answer err failing slow ws
|}.

Definition disconnected : exn := PyError "WebSocketDisconnect".

Definition transport (failing slow : list WebSocket) : Transport :=
  transport_raising disconnected failing slow.

Definition alice : User := mkUser "a1" "Alice".
Definition bob : User := mkUser "b2" "Bob".
Definition carol : User := mkUser "c3" "Carol".

(** Alice on channel 1, Bob on channel 2. *)
Definition two : ConnectionManager :=
  add_connection bob 2 (add_connection alice 1 init).

(** Alice on channel 1, Bob on channel 2, Carol on channel 3. *)
Definition three : ConnectionManager := add_connection carol 3 two.

(** Alice alone, on channel 1. *)
Definition only_alice : ConnectionManager := add_connection alice 1 init.

Definition fresh (m : ConnectionManager) : world := mkWorld m [].

Definition players : gmap ObjectId User :=
  <[id alice := alice]> (<[id bob := bob]> (<[id carol := carol]> ∅)).

Definition greeting (p : User) : payload := Text ("Hello " +:+ name p).

Definition start : payload := DictData StartMsg.
Definition tick : payload := DictData TickMsg.
Definition with_a_set : payload := DictData SetMsg.
Definition hi : payload := Text "hi".


End Demo.

(** Membership goals over the queues of the loop, decided from one
    hypothesis. *)
Ltac mem_prep :=
  repeat match goal with
  | H : context [omap _ (_ ++ _)] |- _ => rewrite omap_app in H
  end;
  rewrite ?omap_app; cbn [omap list_omap carried waking] in *.
Ltac mem_using H := mem_prep; clear -H; set_unfold; naive_solver.

(** * Properties *)

(** ** Dictionaries *)

Lemma get_to_map {V} (d : PyDict.t V) (k : ObjectId) :
  PyDict.to_map d !! k = PyDict.get k d.
Proof.
  unfold PyDict.to_map.
  induction d as [|[k' v] d IH]; simpl; [apply lookup_empty|].
  destruct (decide (k = k')) as [->|Hne].
  - apply lookup_insert_eq.
  - rewrite lookup_insert_ne by congruence. exact IH.
Qed.

Lemma get_Some_elem {V} (d : PyDict.t V) k v :
  PyDict.get k d = Some v → (k, v) ∈ d.
Proof.
  induction d as [|[k' v'] d IH]; simpl; [done|].
  destruct (decide (k = k')) as [->|Hne].
  - intros [= ->]. apply list_elem_of_here.
  - intros H. apply list_elem_of_further, IH, H.
Qed.

Lemma get_None_keys {V} (d : PyDict.t V) k :
  PyDict.get k d = None ↔ k ∉ PyDict.keys d.
Proof.
  unfold PyDict.keys.
  induction d as [|[k' v'] d IH]; simpl.
  - split; [intros _; apply not_elem_of_nil | done].
  - rewrite not_elem_of_cons. destruct (decide (k = k')) as [->|Hne].
    + split; [done | intros [? _]; done].
    + rewrite IH. tauto.
Qed.

Lemma elem_get_wf {V} (d : PyDict.t V) k v :
  PyDict.wf d → (k, v) ∈ d → PyDict.get k d = Some v.
Proof.
  unfold PyDict.wf, PyDict.keys.
  induction d as [|[k' v'] d IH]; simpl.
  - intros _ H. by apply elem_of_nil in H.
  - rewrite NoDup_cons. intros [Hk Hd] Hin.
    apply elem_of_cons in Hin as [[= -> ->]|Hin].
    + by rewrite decide_True.
    + destruct (decide (k = k')) as [->|Hne]; [|by apply IH].
      exfalso. apply Hk. apply list_elem_of_fmap. by exists (k', v).
Qed.

Lemma to_map_set {V} (d : PyDict.t V) k v :
  PyDict.to_map (PyDict.set k v d) = <[k := v]> (PyDict.to_map d).
Proof.
  unfold PyDict.to_map.
  induction d as [|[k' v'] d IH]; simpl; [done|].
  destruct (decide (k = k')) as [->|Hne]; simpl.
  - by rewrite insert_insert_eq.
  - rewrite IH. apply insert_insert_ne. congruence.
Qed.

Lemma keys_set {V} (d : PyDict.t V) k v :
  PyDict.keys (PyDict.set k v d) =
  if decide (k ∈ PyDict.keys d) then PyDict.keys d else PyDict.keys d ++ [k].
Proof.
  unfold PyDict.keys.
  induction d as [|[k' v'] d IH].
  - case_decide as Hin; [by apply elem_of_nil in Hin | done].
  - cbn [PyDict.set]. destruct (decide (k = k')) as [->|Hne].
    + rewrite decide_True; [done | apply list_elem_of_here].
    + rewrite !fmap_cons, IH. cbn [fst].
      destruct (decide (k ∈ d.*1)) as [Hin|Hnin].
      * rewrite decide_True; [done | by apply list_elem_of_further].
      * rewrite decide_False; [done|]. rewrite not_elem_of_cons. done.
Qed.

Lemma wf_set {V} (d : PyDict.t V) k v :
  PyDict.wf d → PyDict.wf (PyDict.set k v d).
Proof.
  unfold PyDict.wf. intros Hd. rewrite keys_set.
  destruct (decide (k ∈ PyDict.keys d)); [done|].
  apply NoDup_app. split_and!; [done | | apply NoDup_singleton].
  intros x Hx Hx'. apply list_elem_of_singleton in Hx'. by subst.
Qed.

Lemma del_None {V} (d : PyDict.t V) k :
  PyDict.del k d = None ↔ PyDict.get k d = None.
Proof.
  induction d as [|[k' v'] d IH]; simpl; [done|].
  destruct (decide (k = k')); [done|].
  destruct (PyDict.del k d); [|tauto].
  split; [done|]. intros H. by apply IH in H.
Qed.

Lemma del_Some {V} (d d' : PyDict.t V) k :
  PyDict.del k d = Some d' →
  PyDict.wf d →
  PyDict.wf d' ∧ PyDict.to_map d' = delete k (PyDict.to_map d).
Proof.
  unfold PyDict.wf, PyDict.keys, PyDict.to_map.
  revert d'. induction d as [|[k' v'] d IH]; simpl; intros d'; [done|].
  rewrite NoDup_cons. destruct (decide (k = k')) as [->|Hne].
  - intros [= <-] [Hk Hd]. split; [done|].
    rewrite delete_insert_eq. symmetry. apply delete_id.
    apply not_elem_of_list_to_map_1. exact Hk.
  - destruct (PyDict.del k d) as [d''|] eqn:Hdel; [|done].
    intros [= <-] [Hk Hd]. destruct (IH d'' eq_refl Hd) as [Hwf Hmap].
    simpl. split.
    + apply NoDup_cons. split; [|done].
      intros Hin. revert Hin. apply not_elem_of_list_to_map_2.
      rewrite Hmap, lookup_delete_ne by done.
      by apply not_elem_of_list_to_map_1.
    + rewrite Hmap. rewrite delete_insert_ne by done. done.
Qed.

(** ** The registry *)

Lemma apply_op_refines (o : reg_op) (self : ConnectionManager) :
  PyDict.wf (connections self) →
  (apply_op o self).1 = (Spec.apply_op o (PyDict.to_map (connections self))).1 ∧
  PyDict.to_map (connections (apply_op o self).2)
    = (Spec.apply_op o (PyDict.to_map (connections self))).2 ∧
  PyDict.wf (connections (apply_op o self).2).
Proof.
  intros Hwf. destruct o as [c ws|c]; simpl.
  - split_and!; [done | apply to_map_set | by apply wf_set].
  - unfold remove_connection. rewrite get_to_map.
    destruct (PyDict.del (id c) (connections self)) as [d|] eqn:Hdel.
    + destruct (del_Some _ _ _ Hdel Hwf) as [Hwf' Hmap].
      destruct (PyDict.get (id c) (connections self)) eqn:Hget.
      * done.
      * apply del_None in Hget. congruence.
    + apply del_None in Hdel. rewrite Hdel. done.
Qed.

Lemma replay_refines (ops : list reg_op) (self : ConnectionManager) :
  PyDict.wf (connections self) →
  (replay ops self).1 = (Spec.replay ops (PyDict.to_map (connections self))).1 ∧
  PyDict.to_map (connections (replay ops self).2)
    = (Spec.replay ops (PyDict.to_map (connections self))).2 ∧
  PyDict.wf (connections (replay ops self).2).
Proof.
  revert self. induction ops as [|o ops IH]; intros self Hwf; [done|].
  destruct (apply_op_refines o self Hwf) as (Hr & Hm & Hwf').
  cbn [replay Spec.replay].
  destruct (apply_op o self) as [r self'].
  destruct (Spec.apply_op o _) as [r' m'].
  simpl in Hr, Hm, Hwf'. subst r' m'.
  destruct (IH self' Hwf') as (Hrs & Hms & Hwfs).
  destruct (replay ops self') as [rs self''].
  destruct (Spec.replay ops _) as [rs' m''].
  simpl in *. by subst.
Qed.

Lemma getitem_to_map (client : User) (self : ConnectionManager) :
  getitem client self =
  match PyDict.to_map (connections self) !! id client with
  | Some ws => Ok ws
  | None => Raise (KeyError (id client))
  end.
Proof. unfold getitem. by rewrite get_to_map. Qed.

(** C8. For every sequence of register and unregister operations applied to
    an empty registry, the outcome of each operation and the resulting
    membership are those of the specification's map, on which register
    inserts or overwrites (last write wins) and unregister removes the
    entry or fails when the identity is absent; the registry holds at most
    one entry per identity, and a lookup returns what the map holds. *)
Theorem replay_net_effect (ops : list reg_op) :
  (replay ops init).1 = (Spec.replay ops ∅).1 ∧
  PyDict.to_map (connections (replay ops init).2) = (Spec.replay ops ∅).2 ∧
  PyDict.wf (connections (replay ops init).2) ∧
  (∀ client : User,
     getitem client (replay ops init).2 =
     match (Spec.replay ops ∅).2 !! id client with
     | Some ws => Ok ws
     | None => Raise (KeyError (id client))
     end).
Proof.
  destruct (replay_refines ops init) as (Hr & Hm & Hwf); [apply NoDup_nil_2|].
  change (PyDict.to_map (connections init)) with (∅ : gmap ObjectId WebSocket) in *.
  split_and!; try done.
  intros client. by rewrite getitem_to_map, Hm.
Qed.

Section Properties.
Context {P : Payloads} {T : Transport}.

Implicit Types (w : world) (l : loop) (client : client_arg) (data : payload).
Implicit Types (coros : list (client_arg * payload)) (sched : list action).
Implicit Types (items : PyDict.t WebSocket) (m : ConnectionManager).

(** ** A single [send], a single [disconnect] *)

Lemma send_world client data w :
  (send client data w).2
  = mkWorld (manager w) (trace w ++ write_of (manager w) (client, data)).
Proof.
  unfold send, write_of. simpl. destruct w as [m tr]. simpl.
  destruct (encode data) as [data'|e]; simpl; [|by rewrite app_nil_r].
  destruct (PyDict.get _ _); simpl; [done | by rewrite app_nil_r].
Qed.

Lemma send_manager client data w : manager (send client data w).2 = manager w.
Proof. by rewrite send_world. Qed.

Lemma disconnect_manager (client : User) w :
  manager (disconnect client w).2 = manager w.
Proof. unfold disconnect. by destruct (PyDict.get _ _). Qed.

Lemma coro_result_await (b : io) (after : result unit → result unit) :
  coro_result (await b after) = after (outcome b).
Proof. unfold await. by destruct (suspends b). Qed.

Lemma send_registered client data data' ws w :
  encode data = Ok data' →
  PyDict.get (client_id client) (connections (manager w)) = Some ws →
  send client data w
  = (await (send_text_io ws (trace w) data') (except_KeyError (client_id client)),
     record (SendText ws data') w).
Proof. intros He Hg. unfold send. by rewrite He, Hg. Qed.

Lemma send_absent client data data' w :
  encode data = Ok data' →
  PyDict.get (client_id client) (connections (manager w)) = None →
  send client data w
  = (Done (Raise (LookupError (not_connected (client_id client))
                              (KeyError (client_id client)))), w).
Proof. intros He Hg. unfold send. by rewrite He, Hg. Qed.

Lemma send_unencodable client data e w :
  encode data = Raise e → send client data w = (Done (Raise e), w).
Proof. intros He. unfold send. by rewrite He. Qed.

(** ** The loop: the manager is only read *)

Lemma run_callback_manager (cb : callback) l :
  manager (the_world (run_callback cb l)) = manager (the_world l).
Proof.
  destruct cb as [i|i r|i r|]; simpl; try done.
  - destruct (children l !! i) as [[client data]|]; [|done].
    pose proof (send_manager client data (the_world l)) as Hm.
    destruct (send client data (the_world l)) as [[r|r] w']; simpl in *; done.
  - destruct (outer l); [done|]. destruct r; [|done].
    simpl. by case_decide.
Qed.

Lemma step_manager (a : action) l :
  manager (the_world (step a l)) = manager (the_world l).
Proof.
  destruct a as [|i]; simpl.
  - destruct (ready l); [done|]. by rewrite run_callback_manager.
  - by destruct (take_waiting i (waiting l)) as [[r rest]|].
Qed.

Lemma exec_snoc sched (a : action) l :
  exec (sched ++ [a]) l = step a (exec sched l).
Proof. unfold exec. by rewrite foldl_app. Qed.

Lemma exec_manager sched l :
  manager (the_world (exec sched l)) = manager (the_world l).
Proof.
  induction sched as [|a sched IH] using rev_ind; [done|].
  by rewrite exec_snoc, step_manager.
Qed.

(** A loop with nothing queued and nobody waiting does nothing more. *)
Lemma step_quiescent (a : action) l : quiescent l → step a l = l.
Proof. intros [Hr Hw]. destruct a; simpl; by rewrite ?Hr, ?Hw. Qed.

Lemma exec_quiescent sched l : quiescent l → exec sched l = l.
Proof.
  intros Hq. induction sched as [|a sched IH] using rev_ind; [done|].
  by rewrite exec_snoc, IH, step_quiescent.
Qed.

(** ** The loop: every run ends *)

Lemma take_waiting_length (i : nat) (ws ws' : list (nat * result unit)) r :
  take_waiting i ws = Some (r, ws') → length ws = S (length ws').
Proof.
  revert ws'. induction ws as [|[j r'] ws IH]; intros ws'; simpl; [done|].
  case_decide.
  - by intros [= -> ->].
  - destruct (take_waiting i ws) as [[r'' ws'']|]; [|done].
    intros [= -> <-]. simpl. f_equal. by apply IH.
Qed.

Lemma take_waiting_perm (i : nat) (ws ws' : list (nat * result unit)) r :
  take_waiting i ws = Some (r, ws') → ws ≡ₚ (i, r) :: ws'.
Proof.
  revert ws'. induction ws as [|[j r'] ws IH]; intros ws'; simpl; [done|].
  case_decide as Hij.
  - intros [= -> ->]. by subst.
  - destruct (take_waiting i ws) as [[r'' ws'']|]; [|done].
    intros [= -> <-]. rewrite (IH ws'' eq_refl). apply Permutation_swap.
Qed.

Lemma weight_step (a : action) l :
  next_action l = Some a → weight (step a l) < weight l.
Proof.
  unfold next_action, weight. destruct l as [w cs rd wt st nf ou pa]; simpl.
  destruct rd as [|cb rd]; simpl.
  - destruct wt as [|[i r] wt]; [done|]. intros [= <-]. simpl.
    rewrite decide_True by done. simpl. lia.
  - intros [= <-]. simpl. destruct cb as [i|i r|i r|]; simpl.
    + destruct (cs !! i) as [[client data]|]; simpl; [|lia].
      destruct (send client data w) as [[r|r] w']; simpl;
        rewrite ?sum_list_with_app, ?length_app; simpl; lia.
    + rewrite sum_list_with_app. simpl. lia.
    + destruct ou; simpl; [lia|]. destruct r; simpl.
      * case_decide; simpl; rewrite ?sum_list_with_app; simpl; lia.
      * rewrite sum_list_with_app. simpl. lia.
    + lia.
Qed.

Lemma next_action_None l : next_action l = None → quiescent l.
Proof.
  unfold next_action, quiescent.
  destruct (ready l); [|done]. by destruct (waiting l) as [|[??]?].
Qed.

Lemma schedule_quiescent (fuel : nat) l :
  weight l ≤ fuel → quiescent (exec (schedule fuel l) l).
Proof.
  revert l. induction fuel as [|fuel IH]; intros l Hfuel; simpl.
  - destruct (next_action l) as [a|] eqn:Ha; [|by apply next_action_None].
    apply weight_step in Ha. lia.
  - destruct (next_action l) as [a|] eqn:Ha; [|by apply next_action_None].
    apply weight_step in Ha. change (exec (a :: ?s) l) with (exec s (step a l)).
    apply IH. lia.
Qed.

(** ** The loop: the invariant *)

Lemma writes_app m coros1 coros2 :
  writes m (coros1 ++ coros2) = writes m coros1 ++ writes m coros2.
Proof. unfold writes. by rewrite fmap_app, concat_app. Qed.

Lemma world_at_0 w coros : world_at w coros 0 = w.
Proof. unfold world_at, writes. destruct w. simpl. by rewrite app_nil_r. Qed.

Lemma world_at_S w coros k client data :
  coros !! k = Some (client, data) →
  (send client data (world_at w coros k)).2 = world_at w coros (S k).
Proof.
  intros Hk. rewrite send_world. unfold world_at. simpl.
  rewrite (take_S_r _ _ _ Hk), writes_app. unfold writes at 3. simpl.
  by rewrite app_nil_r, app_assoc.
Qed.

Lemma child_result_lt w coros i r :
  child_result w coros i = Some r → i < length coros.
Proof.
  unfold child_result. destruct (coros !! i) eqn:Hi; [|done].
  intros _. by apply lookup_lt_Some in Hi.
Qed.

Lemma omap_cons_match {A B} (f : A → option B) (x : A) (xs : list A) :
  omap f (x :: xs) = match f x with Some y => y :: omap f xs | None => omap f xs end.
Proof. done. Qed.

Lemma inv_gather w coros :
  coros ≠ [] → loop_inv w coros (gather coros w) 0 [].
Proof.
  intros Hne. destruct coros as [|c coros]; [done|].
  split; simpl; try done.
  - lia.
  - by rewrite app_nil_r.
  - by rewrite world_at_0.
  - intros i r H. by apply elem_of_nil in H.
  - intros j r _. left. lia.
  - intros _. split_and!; [done | apply not_elem_of_nil | lia |].
    intros j e _. left. lia.
Qed.

Lemma inv_io_complete w coros l k rest i :
  loop_inv w coros l k rest →
  ∃ rest', loop_inv w coros (step (IoComplete i) l) k rest'.
Proof.
  intros [Hch Hk Hrd Hrest Hw Hres Hcnt Hall Hpend Hsome].
  simpl. destruct (take_waiting i (waiting l)) as [[r ws']|] eqn:Htake.
  2:{ exists rest. by split. }
  pose proof (take_waiting_perm _ _ _ _ Htake) as Hperm.
  pose proof (take_waiting_length _ _ _ _ Htake) as Hlen.
  exists (rest ++ [Wakeup i r]).
  split; simpl; try done.
  - by rewrite Hrd, app_assoc.
  - apply Forall_app. split; [done|]. by apply Forall_singleton.
  - intros i' r' Hin. apply Hres. rewrite Hperm. mem_using Hin.
  - rewrite omap_app, length_app. simpl. lia.
  - intros j rj Hj. destruct (Hall j rj Hj) as [?|Hin]; [by left|right].
    rewrite Hperm in Hin. mem_using Hin.
  - intros Hnone. destruct (Hpend Hnone) as (Hpa & Hwp & Hnf & Hfail).
    split_and!; try done.
    + rewrite not_elem_of_app, not_elem_of_cons.
      split_and!; [done | done | apply not_elem_of_nil].
    + intros j e Hj. destruct (Hfail j e Hj) as [?|Hin]; [by left|right].
      rewrite Hperm in Hin. mem_using Hin.
  - intros r0 Hr0. destruct (Hsome r0 Hr0) as (Hkn & Hpa & Hr).
    split_and!; try done.
    destruct Hpa as [?|[? ?]]; [by left|right]. split; [done|].
    apply elem_of_app. by left.
Qed.

Lemma inv_first_step w coros l k rest :
  loop_inv w coros l k rest →
  k < length coros →
  ∃ rest', loop_inv w coros (step RunNext l) (S k) rest'.
Proof.
  intros [Hch Hk Hrd Hrest Hw Hres Hcnt Hall Hpend Hsome] Hlt.
  assert (outer l = None) as Hnone.
  { destruct (outer l) as [r0|] eqn:Ho; [|done].
    destruct (Hsome r0 eq_refl) as [? _]. lia. }
  destruct (Hpend Hnone) as (Hpa & Hwp & Hnf & Hfail).
  replace (length coros - k) with (S (length coros - S k)) in Hrd by lia.
  simpl in Hrd. simpl. rewrite Hrd. simpl. rewrite Hch.
  destruct (lookup_lt_is_Some_2 coros k Hlt) as [[client data] Hlook].
  rewrite Hlook, Hw.
  pose proof (world_at_S w coros k client data Hlook) as Hw'.
  assert (child_result w coros k
          = Some (coro_result (send client data (world_at w coros k)).1)) as Hcr.
  { unfold child_result. by rewrite Hlook. }
  destruct (send client data (world_at w coros k)) as [[r|r] w']; simpl in *.
  - exists (rest ++ [DoneCallback k r]). split; simpl; try done.
    + by rewrite app_assoc.
    + apply Forall_app. split; [done|]. by apply Forall_singleton.
    + intros i' r' Hin.
      assert ((i', r') = (k, r) ∨ (i', r') ∈ waiting l ++ omap carried rest ++ settled l)
        as [[= -> ->]|Hold] by mem_using Hin; [done | by apply Hres].
    + rewrite omap_app, length_app. simpl. lia.
    + intros j rj Hj. destruct (decide (j = k)) as [->|Hne].
      * right. assert (rj = r) as -> by congruence. mem_using Hlt.
      * destruct (Hall j rj Hj) as [?|Hin]; [left; lia|right]. mem_using Hin.
    + intros _. split_and!; try done.
      * rewrite not_elem_of_app, not_elem_of_cons.
        split_and!; [done | done | apply not_elem_of_nil].
      * intros j e Hj. destruct (decide (j = k)) as [->|Hne].
        -- right. assert (r = Raise e) as -> by congruence. mem_using Hlt.
        -- destruct (Hfail j e Hj) as [?|Hin]; [left; lia|right]. mem_using Hin.
    + intros r0 Hr0. congruence.
  - exists rest. split; simpl; try done.
    + intros i' r' Hin.
      assert ((i', r') = (k, r) ∨ (i', r') ∈ waiting l ++ omap carried rest ++ settled l)
        as [[= -> ->]|Hold] by mem_using Hin; [done | by apply Hres].
    + rewrite length_app. simpl. lia.
    + intros j rj Hj. destruct (decide (j = k)) as [->|Hne].
      * right. assert (rj = r) as -> by congruence. mem_using Hlt.
      * destruct (Hall j rj Hj) as [?|Hin]; [left; lia|right]. mem_using Hin.
    + intros _. split_and!; try done.
      intros j e Hj. destruct (decide (j = k)) as [->|Hne].
      * right. assert (r = Raise e) as -> by congruence. mem_using Hlt.
      * destruct (Hfail j e Hj) as [?|Hin]; [left; lia|right]. mem_using Hin.
    + intros r0 Hr0. congruence.
Qed.

Lemma inv_run_rest w coros l rest :
  loop_inv w coros l (length coros) rest →
  ∃ rest', loop_inv w coros (step RunNext l) (length coros) rest'.
Proof.
  intros [Hch Hk Hrd Hrest Hw Hres Hcnt Hall Hpend Hsome].
  rewrite Nat.sub_diag in Hrd. simpl in Hrd. simpl. rewrite Hrd.
  destruct rest as [|cb rest].
  { exists []. split; try done. by rewrite Nat.sub_diag. }
  apply Forall_cons in Hrest as [Hcb Hrest].
  destruct cb as [i|i r|i r|]; [done| | |];
    rewrite ?omap_cons_match in *; cbn [carried waking length] in *; simpl.
  - (* the task wakes up and ends *)
    exists (rest ++ [DoneCallback i r]). split; simpl; try done.
    + by rewrite Nat.sub_diag.
    + apply Forall_app. split; [done|]. by apply Forall_singleton.
    + intros i' r' Hin. apply Hres. mem_using Hin.
    + rewrite omap_app, length_app. simpl. lia.
    + intros j rj Hj. destruct (Hall j rj Hj) as [?|Hin]; [by left|right].
      mem_using Hin.
    + intros Hnone. destruct (Hpend Hnone) as (Hpa & Hwp & Hnf & Hfail).
      split_and!; try done.
      * apply not_elem_of_cons in Hwp as [_ Hwp].
        rewrite not_elem_of_app, not_elem_of_cons.
        split_and!; [done | done | apply not_elem_of_nil].
      * intros j e Hj. destruct (Hfail j e Hj) as [?|Hin]; [by left|right].
        mem_using Hin.
    + intros r0 Hr0. destruct (Hsome r0 Hr0) as (Hkn & Hpa & Hr).
      split_and!; try done.
      destruct Hpa as [?|[? Hin]]; [by left|right]. split; [done|].
      mem_using Hin.
  - (* the done-callback of gather *)
    destruct (outer l) as [r0|] eqn:Hout.
    + exists rest. destruct (Hsome r0 eq_refl) as (Hkn & Hpa & Hr).
      split; simpl; try done.
      * by rewrite Nat.sub_diag.
      * intros i' r' Hin. apply Hres. mem_using Hin.
      * lia.
      * intros r1 [= <-]. split_and!; try done.
        destruct Hpa as [?|[? Hin]]; [by left|right]. split; [done|].
        mem_using Hin.
    + destruct (Hpend eq_refl) as (Hpa & Hwp & Hnf & Hfail).
      apply not_elem_of_cons in Hwp as [_ Hwp].
      assert (child_result w coros i = Some r) as Hi.
      { apply Hres. mem_using Hk. }
      destruct r as [[]|e]; simpl.
      * case_decide as Hlast; rewrite Hch in Hlast; simpl.
        -- exists (rest ++ [WakeParent]). split; simpl; try done.
           ++ by rewrite Nat.sub_diag.
           ++ apply Forall_app. split; [done|]. by apply Forall_singleton.
           ++ intros i' r' Hin. apply Hres. mem_using Hin.
           ++ rewrite omap_app, length_app. simpl. lia.
           ++ intros j rj Hj. destruct (Hall j rj Hj) as [?|Hin]; [by left|right].
              mem_using Hin.
           ++ intros r1 [= <-]. split_and!; [done | | ].
              ** right. split; [done|]. mem_using Hk.
              ** intros j r' Hj. destruct r' as [[]|e]; [done|]. exfalso.
                 destruct (Hfail j e Hj) as [Hge|Hin].
                 { apply child_result_lt in Hj. lia. }
                 assert (length (waiting l) = 0) as Hw0 by lia.
                 assert (length (omap carried rest) = 0) as Hc0 by lia.
                 apply nil_length_inv in Hw0, Hc0. rewrite Hw0, Hc0 in Hin.
                 simpl in Hin. apply list_elem_of_singleton in Hin. done.
        -- exists rest. split; simpl; try done.
           ++ by rewrite Nat.sub_diag.
           ++ intros i' r' Hin. apply Hres. mem_using Hin.
           ++ lia.
           ++ intros _. split_and!; [done | done | lia |].
              intros j e Hj. destruct (Hfail j e Hj) as [?|Hin]; [by left|right].
              mem_using Hin.
      * exists (rest ++ [WakeParent]). split; simpl; try done.
        -- by rewrite Nat.sub_diag.
        -- apply Forall_app. split; [done|]. by apply Forall_singleton.
        -- intros i' r' Hin. apply Hres. mem_using Hin.
        -- rewrite omap_app, length_app. simpl. lia.
        -- intros j rj Hj. destruct (Hall j rj Hj) as [?|Hin]; [by left|right].
           mem_using Hin.
        -- intros r1 [= <-]. split_and!; [done | | by exists i].
           right. split; [done|]. mem_using Hk.
  - (* the awaiting caller wakes up *)
    exists rest. destruct (outer l) as [r0|] eqn:Hout.
    2:{ destruct (Hpend eq_refl) as (_ & Hwp & _). exfalso. apply Hwp.
        apply list_elem_of_here. }
    destruct (Hsome r0 eq_refl) as (Hkn & Hpa & Hr).
    split; simpl; try done.
    + by rewrite Nat.sub_diag.
    + intros r1 [= <-]. split_and!; try done. by left.
Qed.

Lemma loop_ok_step w coros l (a : action) :
  loop_ok w coros l → loop_ok w coros (step a l).
Proof.
  intros (k & rest & Hinv). destruct a as [|i].
  - destruct (decide (k < length coros)) as [Hlt|Hge].
    + destruct (inv_first_step _ _ _ _ _ Hinv Hlt) as [rest' Hinv'].
      by exists (S k), rest'.
    + assert (k = length coros) as ->
        by (pose proof (inv_started _ _ _ _ _ Hinv); lia).
      destruct (inv_run_rest _ _ _ _ Hinv) as [rest' Hinv'].
      by exists (length coros), rest'.
  - destruct (inv_io_complete _ _ _ _ _ i Hinv) as [rest' Hinv'].
    by exists k, rest'.
Qed.

Lemma loop_ok_exec w coros sched :
  coros ≠ [] → loop_ok w coros (exec sched (gather coros w)).
Proof.
  intros Hne. induction sched as [|a sched IH] using rev_ind.
  - exists 0, []. by apply inv_gather.
  - rewrite exec_snoc. by apply loop_ok_step.
Qed.

(** ** The loop: what the invariant gives *)

Lemma exec_gather_nil sched w : exec sched (gather [] w) = gather [] w.
Proof. by apply exec_quiescent. Qed.

Lemma exec_raised sched (e : exn) w : exec sched (raised e w) = raised e w.
Proof. by apply exec_quiescent. Qed.

(** At every moment the transport has seen the calls of the tasks that
    took their first step, in the order of the coroutines. *)
Lemma gather_trace coros w sched :
  ∃ k, k ≤ length coros ∧
       the_world (exec sched (gather coros w)) = world_at w coros k.
Proof.
  destruct (decide (coros = [])) as [->|Hne].
  - exists 0. rewrite exec_gather_nil. simpl. by rewrite world_at_0.
  - destruct (loop_ok_exec w coros sched Hne) as (k & rest & Hinv).
    exists k. split; [apply Hinv|]. apply Hinv.
Qed.

(** When the caller gets its answer every task has taken its first step. *)
Lemma gather_returned coros w sched r :
  parent (exec sched (gather coros w)) = Some r →
  the_world (exec sched (gather coros w)) = world_at w coros (length coros) ∧
  match r with
  | Raise e => ∃ j, child_result w coros j = Some (Raise e)
  | Ok _ => ∀ j r', child_result w coros j = Some r' → r' = Ok tt
  end.
Proof.
  destruct (decide (coros = [])) as [->|Hne].
  - rewrite exec_gather_nil. simpl. intros [= <-]. split; [by rewrite world_at_0|].
    intros j r'. unfold child_result. by rewrite lookup_nil.
  - destruct (loop_ok_exec w coros sched Hne) as (k & rest & Hinv).
    intros Hpa.
    destruct (outer (exec sched (gather coros w))) as [r0|] eqn:Hout.
    + destruct (inv_resolved _ _ _ _ _ Hinv r0 Hout) as (-> & Hpa' & Hr).
      assert (r0 = r) as -> by (destruct Hpa' as [?|[? _]]; congruence).
      split; [apply Hinv | done].
    + destruct (inv_pending _ _ _ _ _ Hinv Hout) as [? _]. congruence.
Qed.

(** When nothing is left to do the caller has its answer and every task
    has ended with the result of its [send]. *)
Lemma gather_quiescent coros w sched :
  quiescent (exec sched (gather coros w)) →
  is_Some (parent (exec sched (gather coros w))) ∧
  ∀ j r, child_result w coros j = Some r →
         (j, r) ∈ settled (exec sched (gather coros w)).
Proof.
  destruct (decide (coros = [])) as [->|Hne].
  - rewrite exec_gather_nil. simpl. intros _. split; [by eexists|].
    intros j r. unfold child_result. by rewrite lookup_nil.
  - destruct (loop_ok_exec w coros sched Hne) as (k & rest & Hinv).
    intros [Hrd Hwt].
    pose proof (inv_ready _ _ _ _ _ Hinv) as Hready. rewrite Hrd in Hready.
    symmetry in Hready. apply app_eq_nil in Hready as [Hsteps ->].
    apply fmap_nil_inv in Hsteps.
    assert (k = length coros) as ->.
    { pose proof (inv_started _ _ _ _ _ Hinv).
      apply (f_equal length) in Hsteps. rewrite length_seq in Hsteps.
      simpl in Hsteps. lia. }
    split.
    + destruct (outer (exec sched (gather coros w))) as [r0|] eqn:Hout.
      * destruct (inv_resolved _ _ _ _ _ Hinv r0 Hout) as (_ & [Hpa|[_ Hin]] & _).
        -- rewrite Hpa. by eexists.
        -- by apply elem_of_nil in Hin.
      * destruct (inv_pending _ _ _ _ _ Hinv Hout) as (_ & _ & Hnf & _).
        pose proof (inv_count _ _ _ _ _ Hinv) as Hcnt.
        rewrite Hwt in Hcnt. simpl in Hcnt. lia.
    + intros j r Hj.
      destruct (inv_everyone _ _ _ _ _ Hinv j r Hj) as [Hge|Hin].
      * apply child_result_lt in Hj. lia.
      * rewrite Hwt in Hin. simpl in Hin. done.
Qed.

(** Every run can be carried on until nothing is left to do, and then the
    caller has its answer. *)
Lemma run_to_end_quiescent l : quiescent (run_to_end l).
Proof. by apply schedule_quiescent. Qed.

Lemma gather_run_to_end coros w :
  is_Some (parent (run_to_end (gather coros w))).
Proof.
  apply (gather_quiescent coros w (schedule (weight (gather coros w)) (gather coros w))).
  apply run_to_end_quiescent.
Qed.

(** One failing task: the caller gets that failure and nothing else. *)
Lemma gather_one_failure coros w (f : nat) (e : exn) sched r :
  child_result w coros f = Some (Raise e) →
  (∀ j r', j ≠ f → child_result w coros j = Some r' → r' = Ok tt) →
  parent (exec sched (gather coros w)) = Some r →
  r = Raise e.
Proof.
  intros Hf Hothers Hpa.
  destruct (gather_returned _ _ _ _ Hpa) as [_ Hr].
  destruct r as [[]|e'].
  - by specialize (Hr f _ Hf).
  - destruct Hr as [j Hj]. destruct (decide (j = f)) as [->|Hne].
    + congruence.
    + by specialize (Hothers j _ Hne Hj).
Qed.

(** ** Claims about a single call *)

(** C1, as the code has it.  For every registered identity, [disconnect]
    calls [close] on its channel exactly once and gives the caller what
    [close] gave, success or failure; it does not touch the registry: the
    entry is still there afterwards, until [remove_connection] is called. *)
Theorem disconnect_closes_once (client : User) (ws : WebSocket) w :
  PyDict.get (id client) (connections (manager w)) = Some ws →
  trace (disconnect client w).2 = trace w ++ [Close ws] ∧
  coro_result (disconnect client w).1 = outcome (close_io ws (trace w)) ∧
  manager (disconnect client w).2 = manager w ∧
  getitem client (manager (disconnect client w).2) = Ok ws.
Proof.
  intros Hget. unfold getitem. rewrite disconnect_manager, Hget.
  unfold disconnect. rewrite Hget. simpl.
  by rewrite coro_result_await.
Qed.

(** C3, as the code has it.  For an identity absent from the registry,
    [send] performs no channel write and raises [LookupError] from the
    [KeyError] of the subscript, unless encoding the payload raises, in
    which case that exception is raised, likewise without a write.  For a
    registered identity, an exception of the channel write that is not a
    [KeyError] reaches the caller as it is. *)
Theorem send_failures client data w :
  (PyDict.get (client_id client) (connections (manager w)) = None →
   match encode data with
   | Ok _ =>
       send client data w
       = (Done (Raise (LookupError (not_connected (client_id client))
                                   (KeyError (client_id client)))), w)
   | Raise e => send client data w = (Done (Raise e), w)
   end) ∧
  (∀ ws data' e,
     PyDict.get (client_id client) (connections (manager w)) = Some ws →
     encode data = Ok data' →
     outcome (send_text_io ws (trace w) data') = Raise e →
     (∀ k, e ≠ KeyError k) →
     coro_result (send client data w).1 = Raise e ∧
     (send client data w).2 = record (SendText ws data') w).
Proof.
  split.
  - intros Hget. destruct (encode data) as [data'|e] eqn:He.
    + by apply send_absent with data'.
    + by apply send_unencodable.
  - intros ws data' e Hget He Hout Hnot.
    rewrite (send_registered _ _ _ _ _ He Hget). simpl.
    rewrite coro_result_await, Hout. split; [|done].
    destruct e as [k| |]; [by destruct (Hnot k) | done | done].
Qed.


(** ** The coroutines of the fan-out operations *)

Lemma broadcast_coros_cons data exclude (item : ObjectId * WebSocket) items :
  broadcast_coros data exclude (item :: items)
  = if not_excluded exclude item.1
    then (AnId item.1, data) :: broadcast_coros data exclude items
    else broadcast_coros data exclude items.
Proof. unfold broadcast_coros. simpl. by destruct (not_excluded _ _). Qed.

Lemma broadcast_coros_length data exclude items :
  length (broadcast_coros data exclude items)
  = length (List.filter (λ item, not_excluded exclude item.1) items).
Proof. unfold broadcast_coros. by rewrite length_fmap. Qed.

Lemma broadcast_coros_elem data exclude items (child : client_arg * payload) :
  child ∈ broadcast_coros data exclude items →
  ∃ item, item ∈ items ∧ not_excluded exclude item.1 = true ∧
          child = (AnId item.1, data).
Proof.
  induction items as [|item items IH].
  - intros H. by apply elem_of_nil in H.
  - rewrite broadcast_coros_cons.
    destruct (not_excluded exclude item.1) eqn:Hx.
    + intros [->|Hin]%elem_of_cons.
      * exists item. split_and!; [apply list_elem_of_here | done | done].
      * destruct (IH Hin) as (item' & ? & ? & ?). exists item'.
        split_and!; [by apply list_elem_of_further | done | done].
    + intros Hin. destruct (IH Hin) as (item' & ? & ? & ?). exists item'.
      split_and!; [by apply list_elem_of_further | done | done].
Qed.

Lemma not_excluded_Some (x : User) (k : ObjectId) :
  not_excluded (Some x) k = bool_decide (k ≠ id x).
Proof. done. Qed.

Lemma filter_all (items : PyDict.t WebSocket) (exclude : option User) :
  exclude = None →
  List.filter (λ item, not_excluded exclude item.1) items = items.
Proof.
  intros ->. induction items as [|item items IH]; [done|].
  simpl. by rewrite IH.
Qed.

Lemma filter_absent (items : PyDict.t WebSocket) (x : User) :
  PyDict.get (id x) items = None →
  List.filter (λ item, not_excluded (Some x) item.1) items = items.
Proof.
  induction items as [|[k ws] items IH]; simpl; [done|].
  destruct (decide (id x = k)) as [<-|Hne]; [done|].
  intros Hget. rewrite not_excluded_Some, bool_decide_true by congruence.
  by rewrite IH.
Qed.

Lemma filter_registered (items : PyDict.t WebSocket) (x : User) (ws : WebSocket) :
  PyDict.wf items →
  PyDict.get (id x) items = Some ws →
  length (List.filter (λ item, not_excluded (Some x) item.1) items) + 1
  = length items.
Proof.
  unfold PyDict.wf, PyDict.keys.
  induction items as [|[k ws'] items IH]; simpl; [done|].
  rewrite NoDup_cons. intros [Hk Hnd].
  destruct (decide (id x = k)) as [<-|Hne].
  - intros _. rewrite not_excluded_Some, bool_decide_false by (intros ?; done).
    rewrite filter_absent; [lia|]. by apply get_None_keys.
  - intros Hget. rewrite not_excluded_Some, bool_decide_true by congruence.
    simpl. rewrite <- (IH Hnd Hget). lia.
Qed.

Lemma writes_cons m (child : client_arg * payload) coros :
  writes m (child :: coros) = write_of m child ++ writes m coros.
Proof. done. Qed.

Lemma writes_elem m coros (ev : event) :
  ev ∈ writes m coros →
  ∃ client data data' ws,
    (client, data) ∈ coros ∧ encode data = Ok data' ∧
    PyDict.get (client_id client) (connections m) = Some ws ∧
    ev = SendText ws data'.
Proof.
  induction coros as [|[client data] coros IH].
  - intros H. by apply elem_of_nil in H.
  - rewrite writes_cons. intros [Hin|Hin]%elem_of_app.
    + unfold write_of in Hin. simpl in Hin.
      destruct (encode data) as [data'|] eqn:He;
        [|by apply elem_of_nil in Hin].
      destruct (PyDict.get _ _) as [ws|] eqn:Hget;
        [|by apply elem_of_nil in Hin].
      apply list_elem_of_singleton in Hin. exists client, data, data', ws.
      split_and!; [apply list_elem_of_here | done | done | done].
    + destruct (IH Hin) as (client' & d & d' & ws & ? & ? & ? & ?).
      exists client', d, d', ws.
      split_and!; [by apply list_elem_of_further | done | done | done].
Qed.

Lemma writes_take_elem m coros (k : nat) (ev : event) :
  ev ∈ writes m (take k coros) → ev ∈ writes m coros.
Proof.
  rewrite <- (take_drop k coros) at 2. rewrite writes_app, elem_of_app. by left.
Qed.

(** In a well-formed registry the subscript of each item's key finds the
    item's channel. *)
Lemma writes_broadcast data data' exclude m sub :
  PyDict.wf (connections m) →
  encode data = Ok data' →
  sub ⊆ connections m →
  writes m (broadcast_coros data exclude sub)
  = (λ item, SendText item.2 data')
      <$> List.filter (λ item, not_excluded exclude item.1) sub.
Proof.
  intros Hwf He. induction sub as [|[k ws] sub IH]; intros Hsub; [done|].
  rewrite broadcast_coros_cons. simpl.
  assert (sub ⊆ connections m) as Hsub'.
  { intros item Hin. apply Hsub. by apply list_elem_of_further. }
  destruct (not_excluded exclude k); [|by apply IH].
  rewrite writes_cons, fmap_cons, (IH Hsub'). unfold write_of. simpl.
  rewrite He, (elem_get_wf _ k ws Hwf); [done|].
  apply Hsub, list_elem_of_here.
Qed.

Lemma writes_unencodable m coros :
  (∀ child, child ∈ coros → ∃ e, encode child.2 = Raise e) →
  writes m coros = [].
Proof.
  induction coros as [|child coros IH]; intros Hall; [done|].
  rewrite writes_cons, IH.
  - destruct (Hall child) as [e He]; [apply list_elem_of_here|].
    unfold write_of. by rewrite He.
  - intros c Hin. apply Hall. by apply list_elem_of_further.
Qed.

Lemma child_result_unencodable w coros (j : nat) (r : result unit) (e : exn) :
  (∀ child, child ∈ coros → encode child.2 = Raise e) →
  child_result w coros j = Some r → r = Raise e.
Proof.
  intros Hall. unfold child_result.
  destruct (coros !! j) as [[c d]|] eqn:Hlook; [|done].
  rewrite (send_unencodable c d e); [by intros [= <-]|].
  apply (Hall (c, d)). by apply list_elem_of_lookup_2 with j.
Qed.


Lemma personal_coros_missing (data_factory : PlayerData → payload)
    (player_mapping : gmap ObjectId PlayerData) items (k : ObjectId) :
  k ∈ PyDict.keys items →
  player_mapping !! k = None →
  ∃ k', k' ∈ PyDict.keys items ∧ player_mapping !! k' = None ∧
        personal_coros data_factory player_mapping items = Raise (KeyError k').
Proof.
  unfold PyDict.keys. intros Hin Hnone.
  induction items as [|[k0 ws] items IH]; [by apply elem_of_nil in Hin|].
  simpl. destruct (player_mapping !! k0) as [player|] eqn:Hk0.
  - rewrite fmap_cons in Hin. apply elem_of_cons in Hin as [->|Hin].
    { simpl in Hnone. congruence. }
    destruct (IH Hin) as (k' & Hk' & Hnone' & ->).
    exists k'. split_and!; [by apply list_elem_of_further | done | done].
  - exists k0. split_and!; [apply list_elem_of_here | done | done].
Qed.




(** ** Claims about the fan-out operations *)

(** C9. [send], [broadcast] and [personal_broadcast] leave the registry as
    it was, whatever the transport answers and whenever one looks: after
    a [send] that returned, raised or was suspended, and after any number
    of steps of the loop on behalf of a fan-out. *)
Theorem sends_leave_registry :
  (∀ client data w, manager (send client data w).2 = manager w) ∧
  (∀ data exclude w sched,
     manager (the_world (exec sched (broadcast data exclude w))) = manager w) ∧
  (∀ data_factory player_mapping w sched,
     manager (the_world (exec sched (personal_broadcast data_factory player_mapping w)))
     = manager w).
Proof.
  split_and!.
  - apply send_manager.
  - intros data exclude w sched. rewrite exec_manager. unfold broadcast, gather.
    by destruct (broadcast_coros _ _ _).
  - intros data_factory player_mapping w sched. rewrite exec_manager.
    unfold personal_broadcast, gather, raised.
    destruct (personal_coros _ _ _) as [[|c coros]|e]; done.
Qed.

(** C10. When every registered identity is excluded, and so for the empty
    registry, [broadcast] returns at once without an error, and no channel
    is written to then or later. *)
Theorem broadcast_to_nobody data exclude w sched :
  (∀ item, item ∈ connections (manager w) → not_excluded exclude item.1 = false) →
  parent (exec sched (broadcast data exclude w)) = Some (Ok tt) ∧
  the_world (exec sched (broadcast data exclude w)) = w.
Proof.
  intros Hall.
  assert (broadcast_coros data exclude (connections (manager w)) = []) as Hnil.
  { destruct (broadcast_coros data exclude (connections (manager w)))
      as [|child coros] eqn:Hc; [done|].
    destruct (broadcast_coros_elem data exclude (connections (manager w)) child)
      as (item & Hin & Hx & _).
    { rewrite Hc. apply list_elem_of_here. }
    rewrite (Hall item Hin) in Hx. done. }
  unfold broadcast. rewrite Hnil, exec_gather_nil. done.
Qed.

(** C6. In a registry of N identities, [broadcast] without [exclude] makes
    N coroutines of [send], one for each identity, and with a registered
    identity excluded N-1, none of them for that identity.  The call does
    return, and when it does each of them has made its call of [send_text]:
    the transport has seen the payload once on the channel of every
    identity that is not excluded, in the order of the registry.  The
    channel of the excluded identity is never written to, provided it is
    not also the channel of another identity. *)
Theorem broadcast_sends data exclude w :
  PyDict.wf (connections (manager w)) →
  let items := connections (manager w) in
  let coros := broadcast_coros data exclude items in
  (exclude = None →
     length coros = length items ∧ coros = (λ item, (AnId item.1, data)) <$> items) ∧
  (∀ x ws, exclude = Some x → PyDict.get (id x) items = Some ws →
     length coros + 1 = length items ∧
     (∀ child, child ∈ coros → client_id child.1 ≠ id x)) ∧
  is_Some (parent (run_to_end (broadcast data exclude w))) ∧
  (∀ sched r data',
     parent (exec sched (broadcast data exclude w)) = Some r →
     encode data = Ok data' →
     trace (the_world (exec sched (broadcast data exclude w)))
     = trace w ++ ((λ item, SendText item.2 data')
                     <$> List.filter (λ item, not_excluded exclude item.1) items)) ∧
  (∀ x ws sched, exclude = Some x → PyDict.get (id x) items = Some ws →
     (∀ item, item ∈ items → item.2 = ws → item.1 = id x) →
     ∃ new, trace (the_world (exec sched (broadcast data exclude w)))
            = trace w ++ new ∧
            ∀ data', SendText ws data' ∉ new).
Proof.
  intros Hwf items coros. split_and!.
  - intros Hex. subst coros. rewrite broadcast_coros_length.
    unfold broadcast_coros. by rewrite (filter_all items exclude Hex).
  - intros x ws -> Hget. split.
    + subst coros. rewrite broadcast_coros_length.
      by apply filter_registered with ws.
    + intros child Hin.
      destruct (broadcast_coros_elem _ _ _ _ Hin) as (item & _ & Hx & ->).
      rewrite not_excluded_Some in Hx. by apply bool_decide_eq_true in Hx.
  - apply gather_run_to_end.
  - intros sched r data' Hpa He.
    destruct (gather_returned _ _ _ _ Hpa) as [Hw _]. unfold broadcast in *.
    rewrite Hw. simpl. rewrite firstn_all. f_equal.
    by apply writes_broadcast.
  - intros x ws sched -> Hget Hown.
    destruct (gather_trace coros w sched) as (k & _ & Hk).
    exists (writes (manager w) (take k coros)). unfold broadcast.
    subst coros items. rewrite Hk. split; [done|].
    intros data' Hin. apply writes_take_elem in Hin.
    destruct (writes_elem _ _ _ Hin) as (client & d & d' & ws' & Hc & _ & Hg & Heq).
    injection Heq as <- <-.
    destruct (broadcast_coros_elem _ _ _ _ Hc) as (item & _ & Hx & [= -> ->]).
    simpl in Hg. rewrite not_excluded_Some in Hx.
    apply bool_decide_eq_true in Hx. apply Hx.
    apply (Hown (item.1, ws)); [|done]. by apply get_Some_elem.
Qed.

(** C2, as the code has it.  When exactly one of the sends of a
    [broadcast] fails, no send is cancelled or skipped.  When the payload
    can be encoded, which is so as soon as there are two sends, the
    transport has seen, by the time the caller gets its answer, the call of
    [send_text] of every one of the sends: the encoded payload once on the
    channel of each recipient, in the order of the registry.  When the
    payload cannot be encoded there is one send only, it raises the
    exception of the serialiser, and no channel is written to.  Once
    nothing is left to do every other send has ended well.  The caller
    gets the exception of the failed send as it is, which may be before
    the other sends have ended; and the loop, run until nothing is left to
    do, does give the caller that exception. *)
Theorem broadcast_one_failure data exclude w (f : nat) (e : exn) :
  PyDict.wf (connections (manager w)) →
  let recipients :=
    List.filter (λ item, not_excluded exclude item.1) (connections (manager w)) in
  let coros := broadcast_coros data exclude (connections (manager w)) in
  child_result w coros f = Some (Raise e) →
  (∀ j r, j ≠ f → child_result w coros j = Some r → r = Ok tt) →
  (∀ sched r,
     parent (exec sched (broadcast data exclude w)) = Some r →
     r = Raise e ∧
     trace (the_world (exec sched (broadcast data exclude w)))
     = trace w ++ writes (manager w) coros) ∧
  length recipients = length coros ∧
  (2 ≤ length coros → ∃ data', encode data = Ok data') ∧
  (∀ sched r data',
     parent (exec sched (broadcast data exclude w)) = Some r →
     encode data = Ok data' →
     trace (the_world (exec sched (broadcast data exclude w)))
     = trace w ++ ((λ item, SendText item.2 data') <$> recipients)) ∧
  (∀ e', encode data = Raise e' →
     e' = e ∧ length coros = 1 ∧
     ∀ sched, the_world (exec sched (broadcast data exclude w)) = w) ∧
  (∀ sched,
     quiescent (exec sched (broadcast data exclude w)) →
     parent (exec sched (broadcast data exclude w)) = Some (Raise e) ∧
     ∀ j, j < length coros → j ≠ f →
          (j, Ok tt) ∈ settled (exec sched (broadcast data exclude w))) ∧
  quiescent (run_to_end (broadcast data exclude w)) ∧
  parent (run_to_end (broadcast data exclude w)) = Some (Raise e).
Proof.
  intros Hwf recipients coros Hf Hothers. unfold broadcast. fold coros.
  assert (∀ e', encode data = Raise e' →
                ∀ child, child ∈ coros → encode child.2 = Raise e') as Hraise.
  { intros e' He child Hin.
    by destruct (broadcast_coros_elem _ _ _ _ Hin) as (item & _ & _ & ->). }
  assert (∀ e', encode data = Raise e' → length coros = 1) as Hone.
  { intros e' He. pose proof (child_result_lt _ _ _ _ Hf) as Hlt.
    destruct (decide (length coros = 1)) as [|Hne]; [done|]. exfalso.
    assert (∃ j, j ≠ f ∧ j < length coros) as (j & Hj & Hjlt).
    { destruct f as [|f]; [exists 1 | exists 0]; split; lia. }
    destruct (lookup_lt_is_Some_2 coros j Hjlt) as [[c d] Hlook].
    assert (∃ r, child_result w coros j = Some r) as [r Hcr]
      by (unfold child_result; rewrite Hlook; by eexists).
    pose proof (child_result_unencodable _ _ _ _ e' (Hraise e' He) Hcr) as ->.
    by specialize (Hothers j _ Hj Hcr). }
  split_and!.
  - intros sched r Hpa. split.
    + by apply (gather_one_failure coros w f e sched).
    + destruct (gather_returned _ _ _ _ Hpa) as [Hw _]. rewrite Hw. simpl.
      by rewrite firstn_all.
  - subst coros recipients. by rewrite broadcast_coros_length.
  - intros Htwo. destruct (encode data) as [data'|e'] eqn:He; [by exists data'|].
    specialize (Hone e' eq_refl). lia.
  - intros sched r data' Hpa He.
    destruct (gather_returned _ _ _ _ Hpa) as [Hw _]. rewrite Hw. simpl.
    rewrite firstn_all. f_equal. by apply writes_broadcast.
  - intros e' He. split_and!.
    + pose proof (child_result_unencodable _ _ _ _ e' (Hraise e' He) Hf).
      congruence.
    + by apply (Hone e').
    + intros sched. destruct (gather_trace coros w sched) as (k & _ & ->).
      unfold world_at. rewrite writes_unencodable.
      * rewrite app_nil_r. by destruct w.
      * intros child Hin. exists e'. apply (Hraise e' He).
        by apply (subseteq_take k coros).
  - intros sched Hq. destruct (gather_quiescent _ _ _ Hq) as [[r Hpa] Hall].
    split.
    + rewrite Hpa. f_equal. by apply (gather_one_failure coros w f e sched).
    + intros j Hj Hne. apply Hall.
      destruct (child_result w coros j) as [r'|] eqn:Hcr.
      * by rewrite (Hothers j r' Hne Hcr).
      * unfold child_result in Hcr.
        destruct (lookup_lt_is_Some_2 coros j Hj) as [[c d] Hlook].
        by rewrite Hlook in Hcr.
  - apply run_to_end_quiescent.
  - destruct (gather_run_to_end coros w) as [r Hpa]. rewrite Hpa. f_equal.
    by apply (gather_one_failure coros w f e
                (schedule (weight (gather coros w)) (gather coros w))).
Qed.

(** C5.  When some registered identity has no entry in [player_mapping],
    [personal_broadcast] fails: it raises the [KeyError] of the subscript
    for such an identity, before [gather] is reached, so that no channel is
    written to, then or later. *)
Theorem personal_broadcast_missing_context
    (data_factory : PlayerData → payload)
    (player_mapping : gmap ObjectId PlayerData) w (k : ObjectId) sched :
  k ∈ PyDict.keys (connections (manager w)) →
  player_mapping !! k = None →
  ∃ k', k' ∈ PyDict.keys (connections (manager w)) ∧
        player_mapping !! k' = None ∧
        parent (exec sched (personal_broadcast data_factory player_mapping w))
        = Some (Raise (KeyError k')) ∧
        the_world (exec sched (personal_broadcast data_factory player_mapping w))
        = w.
Proof.
  intros Hin Hnone.
  destruct (personal_coros_missing data_factory player_mapping _ k Hin Hnone)
    as (k' & Hin' & Hnone' & Hc).
  exists k'. unfold personal_broadcast. rewrite Hc, exec_raised.
  by split_and!.
Qed.


End Properties.

(** * Further properties *)

(** ** The registry, operation by operation *)

Lemma get_set_eq {V} (d : PyDict.t V) k v : PyDict.get k (PyDict.set k v d) = Some v.
Proof. by rewrite <- get_to_map, to_map_set, lookup_insert_eq. Qed.

Lemma get_set_ne {V} (d : PyDict.t V) k k' v :
  k ≠ k' → PyDict.get k' (PyDict.set k v d) = PyDict.get k' d.
Proof.
  intros Hne. by rewrite <- !get_to_map, to_map_set, lookup_insert_ne.
Qed.

Lemma set_set {V} (d : PyDict.t V) k v1 v2 :
  PyDict.set k v2 (PyDict.set k v1 d) = PyDict.set k v2 d.
Proof.
  induction d as [|[k' v'] d IH]; simpl.
  - by rewrite decide_True.
  - destruct (decide (k = k')) as [->|Hne]; simpl.
    + by rewrite decide_True.
    + rewrite decide_False by done. by rewrite IH.
Qed.

Lemma set_absent {V} (d : PyDict.t V) k v :
  PyDict.get k d = None → PyDict.set k v d = d ++ [(k, v)].
Proof.
  induction d as [|[k' v'] d IH]; simpl; [done|].
  destruct (decide (k = k')); [done|]. intros Hget. by rewrite IH.
Qed.

Lemma del_set_absent {V} (d : PyDict.t V) k v :
  PyDict.get k d = None → PyDict.del k (PyDict.set k v d) = Some d.
Proof.
  induction d as [|[k' v'] d IH]; simpl.
  - intros _. by rewrite decide_True.
  - destruct (decide (k = k')) as [->|Hne]; [done|].
    intros Hget. simpl. rewrite decide_False by done. by rewrite IH.
Qed.

Lemma get_del {V} (d d' : PyDict.t V) k k' :
  PyDict.wf d → PyDict.del k d = Some d' →
  PyDict.get k' d' = if decide (k = k') then None else PyDict.get k' d.
Proof.
  intros Hwf Hdel. destruct (del_Some _ _ _ Hdel Hwf) as [_ Hmap].
  rewrite <- !get_to_map, Hmap. case_decide as Hk.
  - subst. apply lookup_delete_eq.
  - by apply lookup_delete_ne.
Qed.

Lemma del_is_Some {V} (d : PyDict.t V) k v :
  PyDict.get k d = Some v → is_Some (PyDict.del k d).
Proof.
  intros Hget. destruct (PyDict.del k d) eqn:Hdel; [by eexists|].
  apply del_None in Hdel. congruence.
Qed.

(** X1. A lookup right after [add_connection] gives the connection that
    was registered, and the lookups of the other identities are as before. *)
Theorem lookup_after_register (client : User) (ws : WebSocket)
    (self : ConnectionManager) :
  getitem client (add_connection client ws self) = Ok ws ∧
  ∀ other : User, id other ≠ id client →
    getitem other (add_connection client ws self) = getitem other self.
Proof.
  unfold getitem, add_connection. simpl. split.
  - by rewrite get_set_eq.
  - intros other Hne. rewrite get_set_ne; [done | congruence].
Qed.

(** X2. Registering a client a second time replaces its connection: the
    registry is the one that registering the second connection alone would
    have given, the first connection being forgotten. *)
Theorem register_twice (client : User) (ws1 ws2 : WebSocket)
    (self : ConnectionManager) :
  add_connection client ws2 (add_connection client ws1 self)
  = add_connection client ws2 self.
Proof. unfold add_connection. simpl. by rewrite set_set. Qed.

(** X3. Registering a client that was not registered and unregistering it
    again gives back the registry as it was, order included. *)
Theorem register_then_unregister (client : User) (ws : WebSocket)
    (self : ConnectionManager) :
  PyDict.get (id client) (connections self) = None →
  remove_connection client (add_connection client ws self) = (Ok tt, self).
Proof.
  intros Hget. unfold remove_connection, add_connection. simpl.
  rewrite (del_set_absent _ _ _ Hget). by destruct self.
Qed.

(** X4. [remove_connection] raises [KeyError], leaving the registry as it
    was, exactly when the client is not registered; otherwise it returns
    normally. *)
Theorem unregister_missing (client : User) (self : ConnectionManager) :
  (PyDict.get (id client) (connections self) = None ↔
   remove_connection client self = (Raise (KeyError (id client)), self)) ∧
  (is_Some (PyDict.get (id client) (connections self)) ↔
   (remove_connection client self).1 = Ok tt).
Proof.
  unfold remove_connection. split; split.
  - intros Hget. apply del_None in Hget. by rewrite Hget.
  - destruct (PyDict.del _ _) eqn:Hdel; [done|]. intros _. by apply del_None.
  - intros [ws Hget]. by destruct (del_is_Some _ _ _ Hget) as [d ->].
  - destruct (PyDict.del _ _) eqn:Hdel; [|done]. intros _.
    destruct (PyDict.get _ _) eqn:Hget; [by eexists|].
    apply del_None in Hget. congruence.
Qed.

(** X5. In a registry with one entry per identity, once [remove_connection]
    has returned the client can no longer be looked up, the other clients
    are looked up as before, and the registry still has one entry per
    identity. *)
Theorem unregister_then_lookup (client : User) (self self' : ConnectionManager) :
  PyDict.wf (connections self) →
  remove_connection client self = (Ok tt, self') →
  getitem client self' = Raise (KeyError (id client)) ∧
  (∀ other : User, id other ≠ id client → getitem other self' = getitem other self) ∧
  PyDict.wf (connections self').
Proof.
  intros Hwf. unfold remove_connection.
  destruct (PyDict.del _ _) as [d|] eqn:Hdel; [|done]. intros [= <-].
  unfold getitem. simpl. split_and!.
  - by rewrite (get_del _ _ _ (id client) Hwf Hdel), decide_True.
  - intros other Hne.
    rewrite (get_del _ _ _ (id other) Hwf Hdel), decide_False; [done|congruence].
  - by destruct (del_Some _ _ _ Hdel Hwf).
Qed.

Lemma filter_key_absent {V} (d : PyDict.t V) (k : ObjectId) :
  PyDict.get k d = None →
  List.filter (λ item, bool_decide (item.1 ≠ k)) d = d.
Proof.
  induction d as [|[k' v] d IH]; simpl; [done|].
  destruct (decide (k = k')) as [->|Hne]; [done|].
  intros Hget. rewrite bool_decide_true by congruence. by rewrite IH.
Qed.

Lemma del_filter {V} (d d' : PyDict.t V) (k : ObjectId) :
  PyDict.wf d → PyDict.del k d = Some d' →
  d' = List.filter (λ item, bool_decide (item.1 ≠ k)) d.
Proof.
  unfold PyDict.wf, PyDict.keys. revert d'.
  induction d as [|[k' v] d IH]; intros d'; simpl; [done|].
  rewrite NoDup_cons. intros [Hk Hnd].
  destruct (decide (k = k')) as [->|Hne].
  - intros [= <-]. rewrite bool_decide_false by (intros ?; done).
    symmetry. apply filter_key_absent. by apply get_None_keys.
  - destruct (PyDict.del k d) as [d''|] eqn:Hdel; [|done]. intros [= <-].
    rewrite bool_decide_true by congruence. f_equal. by apply IH.
Qed.

Section Further.
Context {P : Payloads} {T : Transport}.

Implicit Types (w : world) (l : loop) (client : client_arg) (data : payload).
Implicit Types (coros : list (client_arg * payload)) (sched : list action).
Implicit Types (items : PyDict.t WebSocket) (m : ConnectionManager).

(** ** Single calls, one after the other *)

Lemma encode_encoded data data' : encode data = Ok data' → encode data' = Ok data'.
Proof.
  destruct data as [s|d|model|o]; simpl.
  - by intros [= <-].
  - destruct (json_dumps d); [by intros [= <-] | done].
  - destruct (model_json model); [by intros [= <-] | done].
  - by intros [= <-].
Qed.

Lemma except_KeyError_ok (k : ObjectId) (r : result unit) :
  except_KeyError k r = Ok tt ↔ r = Ok tt.
Proof. destruct r as [[]|[| |]]; simpl; split; congruence. Qed.

(** X6. [send] returns normally exactly when the payload can be encoded,
    the client is registered, and the write on its channel succeeds. *)
Theorem send_succeeds_iff client data w :
  coro_result (send client data w).1 = Ok tt ↔
  ∃ data' ws,
    encode data = Ok data' ∧
    PyDict.get (client_id client) (connections (manager w)) = Some ws ∧
    outcome (send_text_io ws (trace w) data') = Ok tt.
Proof.
  destruct (encode data) as [data'|e] eqn:He.
  - destruct (PyDict.get (client_id client) (connections (manager w)))
      as [ws|] eqn:Hget.
    + rewrite (send_registered _ _ _ _ _ He Hget). simpl.
      rewrite coro_result_await, except_KeyError_ok. split.
      * intros Hout. by exists data', ws.
      * intros (d & ws' & [= <-] & [= <-] & Hout). done.
    + rewrite (send_absent _ _ _ _ He Hget). simpl. split; [done|].
      intros (d & ws' & _ & ? & _). done.
  - rewrite (send_unencodable _ _ _ _ He). simpl. split; [done|].
    intros (d & ws' & ? & _). done.
Qed.

(** X7. Sending the text that a [dict] or a model serialises to is the same
    as sending the [dict] or the model: [send] does not encode twice. *)
Theorem send_preencoded client data data' w :
  encode data = Ok data' → send client data' w = send client data w.
Proof.
  intros He. unfold send. by rewrite (encode_encoded _ _ He), He.
Qed.

(** X8. After a client was registered again with another connection, [send]
    writes to the new connection. *)
Theorem send_after_reregister (u : User) (ws : WebSocket) data data' m
    (tr : list event) :
  encode data = Ok data' →
  send (AUser u) data (mkWorld (add_connection u ws m) tr)
  = (await (send_text_io ws tr data') (except_KeyError (id u)),
     mkWorld (add_connection u ws m) (tr ++ [SendText ws data'])).
Proof.
  intros He. rewrite (send_registered (AUser u) data data' ws); [done | done |].
  simpl. apply get_set_eq.
Qed.

(** X9. [disconnect] leaves the client registered: a [send] of a payload
    that can be encoded, following it, does not fail on the lookup.  It
    calls [send_text] with the encoded payload on the channel that was just
    closed, and ends with the answer of the transport passed through the
    [except] clause of [send]: a [KeyError] of the transport becomes a
    [LookupError], any other answer is given as it is. *)
Theorem send_after_disconnect (u : User) (ws : WebSocket) data data' w :
  PyDict.get (id u) (connections (manager w)) = Some ws →
  encode data = Ok data' →
  send (AUser u) data (disconnect u w).2
  = (await (send_text_io ws (trace w ++ [Close ws]) data') (except_KeyError (id u)),
     mkWorld (manager w) (trace w ++ [Close ws; SendText ws data'])) ∧
  coro_result (send (AUser u) data (disconnect u w).2).1
  = except_KeyError (id u) (outcome (send_text_io ws (trace w ++ [Close ws]) data')) ∧
  ((∀ k, outcome (send_text_io ws (trace w ++ [Close ws]) data') ≠ Raise (KeyError k)) →
   coro_result (send (AUser u) data (disconnect u w).2).1
   = outcome (send_text_io ws (trace w ++ [Close ws]) data')).
Proof.
  intros Hget He.
  assert (send (AUser u) data (disconnect u w).2
          = (await (send_text_io ws (trace w ++ [Close ws]) data')
               (except_KeyError (id u)),
             mkWorld (manager w) (trace w ++ [Close ws; SendText ws data'])))
    as Hsend.
  { unfold disconnect. rewrite Hget. simpl.
    rewrite (send_registered (AUser u) data data' ws); [|done|done].
    unfold record. simpl. by rewrite <- app_assoc. }
  rewrite Hsend. simpl. rewrite coro_result_await. split_and!; [done | done |].
  intros Hnot.
  destruct (outcome (send_text_io ws (trace w ++ [Close ws]) data'))
    as [[]|[k| |]]; try done.
  by destruct (Hnot k).
Qed.

(** X10. [disconnect] followed by [remove_connection] is the graceful
    removal: [close] is called once on the client's channel, the removal
    returns normally, and the client is no longer registered. *)
Theorem disconnect_then_unregister (u : User) (ws : WebSocket) w :
  PyDict.wf (connections (manager w)) →
  PyDict.get (id u) (connections (manager w)) = Some ws →
  trace (disconnect u w).2 = trace w ++ [Close ws] ∧
  (remove_connection u (manager (disconnect u w).2)).1 = Ok tt ∧
  getitem u (remove_connection u (manager (disconnect u w).2)).2
  = Raise (KeyError (id u)).
Proof.
  intros Hwf Hget. rewrite disconnect_manager.
  destruct (del_is_Some _ _ _ Hget) as [d Hd].
  unfold remove_connection, getitem. rewrite Hd. simpl. split_and!.
  - unfold disconnect. by rewrite Hget.
  - done.
  - by rewrite (get_del _ _ _ (id u) Hwf Hd), decide_True.
Qed.

(** X11. Once a client is unregistered, nothing reaches its channel through
    the manager: [disconnect] raises [KeyError] without calling [close], and
    [send] raises without calling [send_text], [LookupError] when the
    payload can be encoded and the exception of the serialiser when it
    cannot. *)
Theorem after_unregister (u : User) m m' (tr : list event) data :
  PyDict.wf (connections m) →
  remove_connection u m = (Ok tt, m') →
  disconnect u (mkWorld m' tr) = (Done (Raise (KeyError (id u))), mkWorld m' tr) ∧
  send (AUser u) data (mkWorld m' tr)
  = (Done (Raise (match encode data with
                  | Ok _ => LookupError (not_connected (id u)) (KeyError (id u))
                  | Raise e => e
                  end)),
     mkWorld m' tr).
Proof.
  intros Hwf Hrm. unfold remove_connection in Hrm.
  destruct (PyDict.del (id u) (connections m)) as [d|] eqn:Hd; [|done].
  injection Hrm as <-.
  assert (PyDict.get (id u) d = None) as Hget
    by (by rewrite (get_del _ _ _ (id u) Hwf Hd), decide_True).
  split.
  - unfold disconnect. simpl. by rewrite Hget.
  - destruct (encode data) as [data'|e] eqn:He.
    + by apply send_absent with data'.
    + by apply send_unencodable.
Qed.

(** ** The loop: a normal return comes last *)

(** Once [outer] holds the results, every task was counted. *)
Lemma resolved_ok_counted w coros l (a : action) :
  loop_ok w coros l →
  (outer l = Some (Ok tt) → nfinished l = length coros) →
  outer (step a l) = Some (Ok tt) → nfinished (step a l) = length coros.
Proof.
  intros (k & rest & Hinv) Hq. destruct a as [|i]; simpl.
  2:{ by destruct (take_waiting i (waiting l)) as [[r ws']|]. }
  destruct (ready l) as [|cb rd] eqn:Hrd; [done|].
  destruct cb as [i|i r|i r|]; simpl; try done.
  - destruct (children l !! i) as [[client data]|]; [|done].
    by destruct (send client data (the_world l)) as [[r|r] w'].
  - destruct (outer l) as [r0|] eqn:Hout.
    + simpl. intros [= ->]. exfalso.
      specialize (Hq eq_refl).
      destruct (inv_resolved _ _ _ _ _ Hinv _ Hout) as (-> & _ & _).
      pose proof (inv_ready _ _ _ _ _ Hinv) as Hready.
      pose proof (inv_count _ _ _ _ _ Hinv) as Hcnt.
      rewrite Nat.sub_diag, Hrd in Hready. simpl in Hready. subst rest.
      rewrite omap_cons_match in Hcnt. simpl in Hcnt. lia.
    + destruct r as [[]|e]; simpl; [|done].
      case_decide as Hlast; simpl; [|done].
      intros _. by rewrite Hlast, (inv_children _ _ _ _ _ Hinv).
Qed.

Lemma gather_ok_counted coros w sched :
  coros ≠ [] →
  outer (exec sched (gather coros w)) = Some (Ok tt) →
  nfinished (exec sched (gather coros w)) = length coros.
Proof.
  intros Hne. induction sched as [|a sched IH] using rev_ind.
  - by destruct coros.
  - rewrite exec_snoc. apply resolved_ok_counted with w; [|done].
    by apply loop_ok_exec.
Qed.

Lemma omap_waking_nil (rest : list callback) :
  omap carried rest = [] → omap waking rest = [].
Proof.
  induction rest as [|cb rest IH]; [done|].
  rewrite !omap_cons_match. destruct cb; simpl; try done.
Qed.

(** When the caller gets a normal return, no task is left waiting for the
    transport and every task has ended well. *)
Lemma gather_returned_ok coros w sched :
  parent (exec sched (gather coros w)) = Some (Ok tt) →
  waiting (exec sched (gather coros w)) = [] ∧
  ∀ j, j < length coros → (j, Ok tt) ∈ settled (exec sched (gather coros w)).
Proof.
  destruct (decide (coros = [])) as [->|Hne].
  - rewrite exec_gather_nil. simpl. intros _. split; [done|]. intros j Hj. lia.
  - intros Hpa. destruct (loop_ok_exec w coros sched Hne) as (k & rest & Hinv).
    destruct (outer (exec sched (gather coros w))) as [r0|] eqn:Hout.
    2:{ destruct (inv_pending _ _ _ _ _ Hinv Hout) as [? _]. congruence. }
    destruct (inv_resolved _ _ _ _ _ Hinv r0 Hout) as (-> & Hpa' & Hr).
    assert (r0 = Ok tt) as -> by (destruct Hpa' as [?|[? _]]; congruence).
    pose proof (gather_ok_counted coros w sched Hne Hout) as Hn.
    pose proof (inv_count _ _ _ _ _ Hinv) as Hcnt.
    assert (waiting (exec sched (gather coros w)) = []) as Hw
      by (apply nil_length_inv; lia).
    assert (omap carried rest = []) as Hc by (apply nil_length_inv; lia).
    split; [done|]. intros j Hj.
    destruct (lookup_lt_is_Some_2 coros j Hj) as [[c d] Hlook].
    assert (∃ r, child_result w coros j = Some r) as [r Hcr].
    { unfold child_result. rewrite Hlook. by eexists. }
    rewrite <- (Hr j r Hcr).
    destruct (inv_everyone _ _ _ _ _ Hinv j r Hcr) as [?|Hin]; [lia|].
    by rewrite Hw, (omap_waking_nil _ Hc) in Hin.
Qed.

(** When every [send] ends well the caller gets a normal return. *)
Lemma gather_all_ok coros w :
  (∀ j r, child_result w coros j = Some r → r = Ok tt) →
  parent (run_to_end (gather coros w)) = Some (Ok tt).
Proof.
  intros Hall. destruct (gather_run_to_end coros w) as [r Hpa]. rewrite Hpa.
  destruct (gather_returned coros w _ r Hpa) as [_ Hr].
  destruct r as [[]|e]; [done|]. destruct Hr as [j Hj].
  by specialize (Hall j _ Hj).
Qed.

(** The caller gets an exception exactly when some [send] raises. *)
Lemma gather_fails_iff coros w :
  (∃ e, parent (run_to_end (gather coros w)) = Some (Raise e)) ↔
  (∃ j e, child_result w coros j = Some (Raise e)).
Proof.
  split.
  - intros [e Hpa]. destruct (gather_returned coros w _ _ Hpa) as [_ [j Hj]].
    by exists j, e.
  - intros (j & e & Hj). destruct (gather_run_to_end coros w) as [r Hpa].
    destruct (gather_returned coros w _ r Hpa) as [_ Hr].
    destruct r as [[]|e']; [|by exists e'].
    by specialize (Hr j _ Hj).
Qed.

(** ** The coroutines of the fan-out operations, compared *)

Lemma broadcast_coros_app data exclude items1 items2 :
  broadcast_coros data exclude (items1 ++ items2)
  = broadcast_coros data exclude items1 ++ broadcast_coros data exclude items2.
Proof.
  induction items1 as [|item items1 IH]; [done|].
  rewrite <- app_comm_cons, !broadcast_coros_cons, IH.
  by destruct (not_excluded exclude item.1).
Qed.

Lemma personal_coros_ext (data_factory : PlayerData → payload)
    (pm1 pm2 : gmap ObjectId PlayerData) items :
  (∀ k, k ∈ PyDict.keys items → pm1 !! k = pm2 !! k) →
  personal_coros data_factory pm1 items = personal_coros data_factory pm2 items.
Proof.
  unfold PyDict.keys. induction items as [|[k ws] items IH]; intros Hagree; [done|].
  simpl. rewrite (Hagree k) by apply list_elem_of_here.
  rewrite IH; [done|]. intros k' Hin. apply Hagree.
  rewrite fmap_cons. by apply list_elem_of_further.
Qed.

Lemma personal_coros_constant data (pm : gmap ObjectId PlayerData) items :
  (∀ k, k ∈ PyDict.keys items → is_Some (pm !! k)) →
  personal_coros (λ _, data) pm items = Ok (broadcast_coros data None items).
Proof.
  unfold PyDict.keys. induction items as [|[k ws] items IH]; intros Hall; [done|].
  simpl. destruct (Hall k) as [p ->]; [apply list_elem_of_here|].
  rewrite IH; [done|]. intros k' Hin. apply Hall.
  rewrite fmap_cons. by apply list_elem_of_further.
Qed.

(** ** The fan-out operations: further properties *)

(** X12. Excluding a user who is not registered changes nothing:
    [broadcast] does what it does without [exclude]. *)
Theorem broadcast_exclude_unregistered data (x : User) w :
  PyDict.get (id x) (connections (manager w)) = None →
  broadcast data (Some x) w = broadcast data None w.
Proof.
  intros Hget. unfold broadcast, broadcast_coros.
  by rewrite (filter_absent _ x Hget), (filter_all _ None eq_refl).
Qed.

(** X13. A client that registers while it was not registered is served
    last: [broadcast] makes the coroutines it made before, in the same
    order, followed by one for the new client unless it is excluded. *)
Theorem broadcast_after_register data exclude (u : User) (ws : WebSocket) m :
  PyDict.get (id u) (connections m) = None →
  broadcast_coros data exclude (connections (add_connection u ws m))
  = broadcast_coros data exclude (connections m)
    ++ (if not_excluded exclude (id u) then [(AnId (id u), data)] else []).
Proof.
  intros Hget. unfold add_connection. simpl.
  rewrite (set_absent _ _ _ Hget), broadcast_coros_app, broadcast_coros_cons.
  simpl. by destruct (not_excluded exclude (id u)).
Qed.

(** X14. [broadcast] returns normally only once every [send] has ended
    well, none being left waiting for the transport; and when every [send]
    ends well, it does return normally. *)
Theorem broadcast_returns_after_all data exclude w :
  let coros := broadcast_coros data exclude (connections (manager w)) in
  (∀ sched,
     parent (exec sched (broadcast data exclude w)) = Some (Ok tt) →
     waiting (exec sched (broadcast data exclude w)) = [] ∧
     ∀ j, j < length coros →
          (j, Ok tt) ∈ settled (exec sched (broadcast data exclude w))) ∧
  ((∀ j r, child_result w coros j = Some r → r = Ok tt) →
   parent (run_to_end (broadcast data exclude w)) = Some (Ok tt)).
Proof.
  intros coros. split.
  - intros sched. apply gather_returned_ok.
  - apply gather_all_ok.
Qed.

(** X15. [broadcast] raises exactly when one of its [send]s raises, and
    what it raises is the exception of one of them. *)
Theorem broadcast_fails_iff data exclude w :
  let coros := broadcast_coros data exclude (connections (manager w)) in
  ((∃ e, parent (run_to_end (broadcast data exclude w)) = Some (Raise e)) ↔
   (∃ j e, child_result w coros j = Some (Raise e))) ∧
  (∀ sched e,
     parent (exec sched (broadcast data exclude w)) = Some (Raise e) →
     ∃ j, child_result w coros j = Some (Raise e)).
Proof.
  intros coros. split.
  - apply gather_fails_iff.
  - intros sched e Hpa. by destruct (gather_returned coros w sched _ Hpa).
Qed.

(** X16. A payload that cannot be encoded reaches no channel: whatever the
    loop does, the transport sees nothing of the [broadcast], and when there
    is somebody to send to, the call raises the exception of the
    serialiser. *)
Theorem broadcast_unencodable data exclude w (e : exn) :
  encode data = Raise e →
  let coros := broadcast_coros data exclude (connections (manager w)) in
  (∀ sched, the_world (exec sched (broadcast data exclude w)) = w) ∧
  (coros ≠ [] →
   (∀ sched r, parent (exec sched (broadcast data exclude w)) = Some r →
               r = Raise e) ∧
   parent (run_to_end (broadcast data exclude w)) = Some (Raise e)).
Proof.
  intros He coros.
  assert (∀ child, child ∈ coros → encode child.2 = Raise e) as Hall.
  { intros child Hin.
    by destruct (broadcast_coros_elem _ _ _ _ Hin) as (item & _ & _ & ->). }
  assert (∀ sched r, parent (exec sched (gather coros w)) = Some r →
                     coros ≠ [] → r = Raise e) as Hret.
  { intros sched r Hpa Hne. destruct (gather_returned coros w sched r Hpa) as [_ Hr].
    destruct r as [[]|e'].
    - destruct coros as [|[c d] coros'] eqn:Hc; [done|].
      assert (∃ r, child_result w ((c, d) :: coros') 0 = Some r) as [r Hcr]
        by (unfold child_result; simpl; by eexists).
      rewrite (child_result_unencodable _ _ _ _ e Hall Hcr) in Hcr.
      by specialize (Hr 0 _ Hcr).
    - destruct Hr as [j Hj]. by apply (child_result_unencodable _ _ _ _ e Hall Hj). }
  split.
  - intros sched. unfold broadcast. fold coros.
    destruct (gather_trace coros w sched) as (k & _ & ->).
    unfold world_at. rewrite writes_unencodable.
    + rewrite app_nil_r. by destruct w.
    + intros child Hin. exists e. apply Hall.
      by apply (subseteq_take k coros).
  - intros Hne. split.
    + intros sched r Hpa. by apply (Hret sched).
    + destruct (gather_run_to_end coros w) as [r Hpa].
      unfold broadcast. fold coros. rewrite Hpa. f_equal. by apply (Hret _ r Hpa).
Qed.

(** X17. [personal_broadcast] reads [player_mapping] at the registered
    identities only: entries of players who are not connected make no
    difference. *)
Theorem personal_broadcast_ignores_others (data_factory : PlayerData → payload)
    (pm1 pm2 : gmap ObjectId PlayerData) w :
  (∀ k, k ∈ PyDict.keys (connections (manager w)) → pm1 !! k = pm2 !! k) →
  personal_broadcast data_factory pm1 w = personal_broadcast data_factory pm2 w.
Proof.
  intros Hagree. unfold personal_broadcast.
  by rewrite (personal_coros_ext data_factory pm1 pm2 _ Hagree).
Qed.

(** X18. With a [data_factory] that gives everyone the same payload, and
    every registered identity in [player_mapping], [personal_broadcast] is
    [broadcast] of that payload without [exclude]. *)
Theorem personal_broadcast_constant data (pm : gmap ObjectId PlayerData) w :
  (∀ k, k ∈ PyDict.keys (connections (manager w)) → is_Some (pm !! k)) →
  personal_broadcast (λ _, data) pm w = broadcast data None w.
Proof.
  intros Hall. unfold personal_broadcast, broadcast.
  by rewrite (personal_coros_constant data pm _ Hall).
Qed.

(** X19. When every registered identity is in [player_mapping],
    [personal_broadcast] returns normally only once every [send] has ended
    well, it raises only what one of its [send]s raised, and it does return
    normally when every [send] ends well. *)
Theorem personal_broadcast_outcome (data_factory : PlayerData → payload)
    (pm : gmap ObjectId PlayerData) w coros :
  personal_coros data_factory pm (connections (manager w)) = Ok coros →
  (∀ sched,
     parent (exec sched (personal_broadcast data_factory pm w)) = Some (Ok tt) →
     waiting (exec sched (personal_broadcast data_factory pm w)) = [] ∧
     ∀ j, j < length coros →
          (j, Ok tt) ∈ settled (exec sched (personal_broadcast data_factory pm w))) ∧
  (∀ sched e,
     parent (exec sched (personal_broadcast data_factory pm w)) = Some (Raise e) →
     ∃ j, child_result w coros j = Some (Raise e)) ∧
  ((∀ j r, child_result w coros j = Some r → r = Ok tt) →
   parent (run_to_end (personal_broadcast data_factory pm w)) = Some (Ok tt)).
Proof.
  intros Hc. unfold personal_broadcast. rewrite Hc. split_and!.
  - intros sched. apply gather_returned_ok.
  - intros sched e Hpa. by destruct (gather_returned coros w sched _ Hpa).
  - apply gather_all_ok.
Qed.

Lemma writes_ext m1 m2 coros :
  (∀ child, child ∈ coros →
     PyDict.get (client_id child.1) (connections m1)
     = PyDict.get (client_id child.1) (connections m2)) →
  writes m1 coros = writes m2 coros.
Proof.
  induction coros as [|child coros IH]; intros Hsame; [done|].
  rewrite !writes_cons, IH.
  - unfold write_of. by rewrite (Hsame child) by apply list_elem_of_here.
  - intros c Hin. apply Hsame. by apply list_elem_of_further.
Qed.

(** X20. Unregistering a client and then broadcasting serves the clients
    that a [broadcast] excluding that client served before: the same
    coroutines in the same order, writing the same payload on the same
    channels. *)
Theorem broadcast_after_unregister data (u : User) m m' :
  PyDict.wf (connections m) →
  remove_connection u m = (Ok tt, m') →
  broadcast_coros data None (connections m')
  = broadcast_coros data (Some u) (connections m) ∧
  writes m' (broadcast_coros data None (connections m'))
  = writes m (broadcast_coros data (Some u) (connections m)).
Proof.
  intros Hwf. unfold remove_connection.
  destruct (PyDict.del _ _) as [d|] eqn:Hdel; [|done]. intros [= <-]. simpl.
  assert (broadcast_coros data None d
          = broadcast_coros data (Some u) (connections m)) as Hc.
  { unfold broadcast_coros. rewrite (filter_all d None eq_refl).
    by rewrite (del_filter _ _ _ Hwf Hdel). }
  split; [done|]. rewrite Hc. apply writes_ext.
  intros child Hin.
  destruct (broadcast_coros_elem _ _ _ _ Hin) as (item & _ & Hx & ->). simpl.
  rewrite not_excluded_Some in Hx. apply bool_decide_eq_true in Hx.
  rewrite (get_del _ _ _ item.1 Hwf Hdel), decide_False; [done|congruence].
Qed.

End Further.

(** * Examples in the concrete setting *)

Import Demo.

Lemma disconnect_closes_once_witness :
  PyDict.get (id alice) (connections two) = Some 1 ∧
  trace (disconnect (T := transport [1] []) alice (fresh two)).2 = [Close 1].
Proof.
  split; [reflexivity|].
  apply (disconnect_closes_once (T := transport [1] []) alice 1 (fresh two)).
  reflexivity.
Defined.

(** C1 as stated fails: after a successful [disconnect], and after one whose
    [close] raised, Alice is still registered. *)
Lemma disconnect_keeps_entry :
  (coro_result (disconnect (T := transport [] []) alice (fresh two)).1 = Ok tt ∧
   (disconnect (T := transport [] []) alice (fresh two)).2
   = mkWorld two [Close 1]) ∧
  (coro_result (disconnect (T := transport [1] []) alice (fresh two)).1
   = Raise disconnected ∧
   (disconnect (T := transport [1] []) alice (fresh two)).2
   = mkWorld two [Close 1]) ∧
  getitem alice two = Ok 1.
Proof. by vm_compute. Qed.

Lemma send_failures_witness :
  send (T := transport [] []) (AnId "zz") start (fresh two)
  = (Done (Raise (LookupError "Client zz is not connected" (KeyError "zz"))),
     fresh two) ∧
  coro_result (send (T := transport [2] []) (AUser bob) hi (fresh two)).1
  = Raise disconnected.
Proof.
  split.
  - apply (proj1 (send_failures (T := transport [] [])
                    (AnId "zz") start (fresh two))).
    reflexivity.
  - apply (proj2 (send_failures (T := transport [2] [])
                    (AUser bob) hi (fresh two)) 2 hi).
    + reflexivity.
    + reflexivity.
    + reflexivity.
    + discriminate.
Defined.

(** C3 as stated fails twice: an absent identity and a [dict] that
    [json.dumps] refuses give TypeError, not the lookup failure; and a
    [KeyError] raised by the channel write of a registered identity is
    reported as that identity not being connected. *)
Lemma send_absent_not_always_lookup_error :
  (PyDict.get "zz" (connections two) = None ∧
   send (T := transport [] []) (AnId "zz") with_a_set (fresh two)
   = (Done (Raise not_serializable), fresh two)) ∧
  (PyDict.get "a1" (connections two) = Some 1 ∧
   send (T := transport_raising (KeyError "k") [1] []) (AnId "a1") hi
        (fresh two)
   = (Done (Raise (LookupError "Client a1 is not connected" (KeyError "k"))),
      mkWorld two [SendText 1 hi])).
Proof. by vm_compute. Qed.



Lemma two_wf : PyDict.wf (connections two).
Proof. unfold PyDict.wf. apply (bool_decide_unpack _). by vm_compute. Qed.

Lemma three_wf : PyDict.wf (connections three).
Proof. unfold PyDict.wf. apply (bool_decide_unpack _). by vm_compute. Qed.

Lemma broadcast_to_nobody_witness :
  parent (exec (T := transport [] []) [RunNext; IoComplete 0]
            (broadcast start (Some alice) (fresh only_alice)))
  = Some (Ok tt) ∧
  the_world (exec (T := transport [] []) [RunNext; IoComplete 0]
               (broadcast start (Some alice) (fresh only_alice)))
  = fresh only_alice.
Proof.
  apply (broadcast_to_nobody (T := transport [] []) start (Some alice)
           (fresh only_alice)).
  intros item Hin. apply list_elem_of_singleton in Hin. subst item. reflexivity.
Defined.

Lemma broadcast_sends_witness :
  length (broadcast_coros start (Some bob) (connections three)) + 1
  = length (connections three) ∧
  (∀ child, child ∈ broadcast_coros start (Some bob) (connections three) →
            client_id child.1 ≠ id bob).
Proof.
  apply (proj1 (proj2 (broadcast_sends (T := transport [] []) start (Some bob)
                         (fresh three) three_wf)) bob 2); reflexivity.
Defined.

Lemma broadcast_one_failure_witness :
  (∀ sched r,
     parent (exec (T := transport [1] [2]) sched (broadcast start None (fresh two)))
     = Some r →
     r = Raise disconnected ∧
     trace (the_world (exec (T := transport [1] [2]) sched
                         (broadcast start None (fresh two))))
     = [SendText 1 (Text (type_message "start"));
        SendText 2 (Text (type_message "start"))]) ∧
  (∀ sched,
     quiescent (exec (T := transport [1] [2]) sched (broadcast start None (fresh two))) →
     (1, Ok tt) ∈ settled (exec (T := transport [1] [2]) sched
                             (broadcast start None (fresh two)))) ∧
  parent (run_to_end (T := transport [1] [2]) (broadcast start None (fresh two)))
  = Some (Raise disconnected).
Proof.
  destruct (broadcast_one_failure (T := transport [1] [2]) start None (fresh two)
              0 disconnected two_wf)
    as (Hret & _ & _ & Hall & _ & Hq & _ & Hend).
  - reflexivity.
  - intros j r Hne. destruct j as [|[|j]]; [done | | ]; vm_compute; congruence.
  - split_and!.
    + intros sched r Hpa. split; [by apply (Hret sched)|].
      rewrite (Hall sched r (Text (type_message "start")) Hpa eq_refl).
      reflexivity.
    + intros sched Hquiet. apply (proj2 (Hq sched Hquiet) 1); [vm_compute; lia | done].
    + exact Hend.
Defined.

(** C2 as stated fails.  With Alice's channel failing at once and Bob's
    answering late, the call has failed after four callbacks while Bob's
    send still waits for the transport; and the exception that the caller
    gets is the same when it is Bob's channel that fails: it does not tell
    which identity failed. *)
Lemma broadcast_fails_early_and_anonymously :
  (parent (exec (T := transport [1] [2]) [RunNext; RunNext; RunNext; RunNext]
             (broadcast start None (fresh two)))
   = Some (Raise disconnected) ∧
   waiting (exec (T := transport [1] [2]) [RunNext; RunNext; RunNext; RunNext]
              (broadcast start None (fresh two)))
   = [(1, Ok tt)] ∧
   settled (exec (T := transport [1] [2]) [RunNext; RunNext; RunNext; RunNext]
              (broadcast start None (fresh two)))
   = [(0, Raise disconnected)]) ∧
  parent (exec (T := transport [2] []) [RunNext; RunNext; RunNext; RunNext; RunNext]
            (broadcast start None (fresh two)))
  = Some (Raise disconnected).
Proof. by vm_compute. Qed.

Lemma personal_broadcast_missing_context_witness :
  ∃ k', k' ∈ PyDict.keys (connections three) ∧
        delete (id bob) players !! k' = None ∧
        parent (exec (T := transport [] []) [RunNext]
                  (personal_broadcast greeting
                     (delete (id bob) players) (fresh three)))
        = Some (Raise (KeyError k')) ∧
        the_world (exec (T := transport [] []) [RunNext]
                     (personal_broadcast greeting
                        (delete (id bob) players) (fresh three)))
        = fresh three.
Proof.
  apply (personal_broadcast_missing_context (T := transport [] []) greeting
           (delete (id bob) players) (fresh three) (id bob) [RunNext]).
  - apply (bool_decide_unpack _). by vm_compute.
  - by vm_compute.
Defined.






(** The three players each get their own greeting, and only theirs. *)
Example personal_broadcast_three :
  trace (the_world (run_to_end (T := transport [] [3])
                      (personal_broadcast greeting players (fresh three))))
  = [SendText 1 (Text "Hello Alice"); SendText 2 (Text "Hello Bob");
     SendText 3 (Text "Hello Carol")].
Proof. by vm_compute. Qed.

(** The scenario of the specification: Alice and Bob both get the start
    message; once Alice is unregistered only Bob gets the tick, and a [send]
    to Alice raises [LookupError]. *)
Example scenario :
  trace (the_world (run_to_end (T := transport [] [])
                      (broadcast start None (fresh two))))
  = [SendText 1 (Text (type_message "start"));
     SendText 2 (Text (type_message "start"))] ∧
  (remove_connection alice two).2 = add_connection bob 2 init ∧
  trace (the_world (run_to_end (T := transport [] [])
                      (broadcast tick None (fresh (remove_connection alice two).2))))
  = [SendText 2 (Text (type_message "tick"))] ∧
  coro_result (send (T := transport [] []) (AUser alice) hi
                 (fresh (remove_connection alice two).2)).1
  = Raise (LookupError "Client a1 is not connected" (KeyError "a1")).
Proof. by vm_compute. Qed.

(** ** The further properties in the concrete setting *)

Lemma register_then_unregister_witness :
  remove_connection carol (add_connection carol 3 two) = (Ok tt, two).
Proof. apply (register_then_unregister carol 3 two). reflexivity. Defined.

Lemma unregister_then_lookup_witness :
  getitem alice (remove_connection alice two).2 = Raise (KeyError (id alice)) ∧
  (∀ other : User, id other ≠ id alice →
     getitem other (remove_connection alice two).2 = getitem other two) ∧
  PyDict.wf (connections (remove_connection alice two).2).
Proof.
  apply (unregister_then_lookup alice two (remove_connection alice two).2 two_wf).
  reflexivity.
Defined.

Lemma send_preencoded_witness :
  send (T := transport [] []) (AUser bob) (Text (type_message "start")) (fresh two)
  = send (T := transport [] []) (AUser bob) start (fresh two).
Proof.
  apply (send_preencoded (T := transport [] []) (AUser bob) start
           (Text (type_message "start")) (fresh two)).
  reflexivity.
Defined.

Lemma send_after_reregister_witness :
  send (T := transport [] []) (AUser alice) start (mkWorld (add_connection alice 7 two) [])
  = (await (send_text_io (Transport := transport [] []) 7 []
              (Text (type_message "start")))
       (except_KeyError (id alice)),
     mkWorld (add_connection alice 7 two) ([] ++ [SendText 7 (Text (type_message "start"))])).
Proof.
  apply (send_after_reregister (T := transport [] []) alice 7 start
           (Text (type_message "start")) two []).
  reflexivity.
Defined.

Lemma send_after_disconnect_witness :
  send (T := transport [1] []) (AUser alice) hi
       (disconnect (T := transport [1] []) alice (fresh two)).2
  = (Done (Raise disconnected), mkWorld two [Close 1; SendText 1 hi]) ∧
  coro_result (send (T := transport_raising (KeyError "k") [1] []) (AUser alice) hi
                 (disconnect (T := transport_raising (KeyError "k") [1] [])
                    alice (fresh two)).2).1
  = Raise (LookupError "Client a1 is not connected" (KeyError "k")).
Proof.
  split.
  - apply (proj1 (send_after_disconnect (T := transport [1] []) alice 1 hi hi
                    (fresh two) eq_refl eq_refl)).
  - apply (proj1 (proj2 (send_after_disconnect
                           (T := transport_raising (KeyError "k") [1] [])
                           alice 1 hi hi (fresh two) eq_refl eq_refl))).
Defined.

Lemma disconnect_then_unregister_witness :
  trace (disconnect (T := transport [] []) alice (fresh two)).2 = [] ++ [Close 1] ∧
  (remove_connection alice
     (manager (disconnect (T := transport [] []) alice (fresh two)).2)).1 = Ok tt ∧
  getitem alice
    (remove_connection alice
       (manager (disconnect (T := transport [] []) alice (fresh two)).2)).2
  = Raise (KeyError (id alice)).
Proof.
  apply (disconnect_then_unregister (T := transport [] []) alice 1 (fresh two) two_wf).
  reflexivity.
Defined.

Lemma after_unregister_witness :
  (disconnect (T := transport [] []) alice (mkWorld (remove_connection alice two).2 [])
   = (Done (Raise (KeyError (id alice))), mkWorld (remove_connection alice two).2 []) ∧
   send (T := transport [] []) (AUser alice) hi
        (mkWorld (remove_connection alice two).2 [])
   = (Done (Raise (LookupError "Client a1 is not connected" (KeyError "a1"))),
      mkWorld (remove_connection alice two).2 [])) ∧
  send (T := transport [] []) (AUser alice) with_a_set
       (mkWorld (remove_connection alice two).2 [])
  = (Done (Raise not_serializable), mkWorld (remove_connection alice two).2 []).
Proof.
  split.
  - apply (after_unregister (T := transport [] []) alice two
             (remove_connection alice two).2 [] hi two_wf eq_refl).
  - apply (proj2 (after_unregister (T := transport [] []) alice two
                    (remove_connection alice two).2 [] with_a_set two_wf eq_refl)).
Defined.

Lemma broadcast_exclude_unregistered_witness :
  broadcast start (Some carol) (fresh two) = broadcast start None (fresh two).
Proof. apply (broadcast_exclude_unregistered start carol (fresh two)). reflexivity. Defined.

Lemma broadcast_after_register_witness :
  broadcast_coros start None (connections (add_connection carol 3 two))
  = broadcast_coros start None (connections two)
    ++ (if not_excluded None (id carol) then [(AnId (id carol), start)] else []).
Proof. apply (broadcast_after_register start None carol 3 two). reflexivity. Defined.

Lemma broadcast_returns_after_all_witness :
  parent (run_to_end (T := transport [] [2]) (broadcast start None (fresh two)))
  = Some (Ok tt).
Proof.
  apply (proj2 (broadcast_returns_after_all (T := transport [] [2]) start None
                  (fresh two))).
  intros j r. destruct j as [|[|j]]; vm_compute; congruence.
Defined.

Lemma broadcast_unencodable_witness :
  (∀ sched, the_world (exec (T := transport [] []) sched
                         (broadcast with_a_set None (fresh two))) = fresh two) ∧
  (broadcast_coros with_a_set None (connections two) ≠ [] →
   (∀ sched r, parent (exec (T := transport [] []) sched
                         (broadcast with_a_set None (fresh two))) = Some r →
               r = Raise not_serializable) ∧
   parent (run_to_end (T := transport [] []) (broadcast with_a_set None (fresh two)))
   = Some (Raise not_serializable)).
Proof.
  apply (broadcast_unencodable (T := transport [] []) with_a_set None (fresh two)
           not_serializable).
  reflexivity.
Defined.

Lemma three_keys : PyDict.keys (connections three) = [id alice; id bob; id carol].
Proof. by vm_compute. Qed.

Lemma personal_broadcast_ignores_others_witness :
  personal_broadcast greeting players (fresh three)
  = personal_broadcast greeting (<["d4" := mkUser "d4" "Dave"]> players) (fresh three).
Proof.
  apply (personal_broadcast_ignores_others (P := payloads) greeting players
           (<["d4" := mkUser "d4" "Dave"]> players) (fresh three)).
  intros k Hin. change (k ∈ PyDict.keys (connections three)) in Hin.
  rewrite three_keys in Hin.
  repeat (apply elem_of_cons in Hin as [->|Hin]; [by vm_compute|]).
  by apply elem_of_nil in Hin.
Defined.

Lemma personal_broadcast_constant_witness :
  personal_broadcast (λ _, hi) players (fresh three) = broadcast hi None (fresh three).
Proof.
  apply (personal_broadcast_constant (P := payloads) hi players (fresh three)).
  intros k Hin. change (k ∈ PyDict.keys (connections three)) in Hin.
  rewrite three_keys in Hin.
  repeat (apply elem_of_cons in Hin as [->|Hin];
          [apply (bool_decide_unpack _); by vm_compute|]).
  by apply elem_of_nil in Hin.
Defined.

Lemma personal_broadcast_outcome_witness :
  parent (run_to_end (T := transport [] [3])
            (personal_broadcast greeting players (fresh three)))
  = Some (Ok tt).
Proof.
  apply (proj2 (proj2 (personal_broadcast_outcome (T := transport [] [3]) greeting
                         players (fresh three)
                         [(AnId "a1", greeting alice); (AnId "b2", greeting bob);
                          (AnId "c3", greeting carol)] eq_refl))).
  intros j r. destruct j as [|[|[|j]]]; vm_compute; congruence.
Defined.

Lemma broadcast_after_unregister_witness :
  broadcast_coros start None (connections (remove_connection bob three).2)
  = broadcast_coros start (Some bob) (connections three) ∧
  writes (remove_connection bob three).2
    (broadcast_coros start None (connections (remove_connection bob three).2))
  = writes three (broadcast_coros start (Some bob) (connections three)).
Proof.
  apply (broadcast_after_unregister start bob three (remove_connection bob three).2
           three_wf).
  reflexivity.
Defined.
